(** * Kinetiscope_Utils: top-reaction tables, pathway ranking and the
      nested reaction-classification dictionary

    A shallow embedding of

    - [analyze_kinetiscope_data/build_top_reaction_dict.py]
    - [classify_HiPRGen_reactions/gen_HiPRGen_rxn_dict_direct.py]

    Python objects are referenced through locations; a computation is a
    function from the state it runs in to its completion (a returned value
    or a raised exception) and the state it leaves behind. *)

From Stdlib Require Import ZArith Lia.
From stdpp Require Import base tactics option list list_numbers strings gmap functions sorting.

Open Scope string_scope.
Open Scope list_scope.
Open Scope Z_scope.

(** ** Python-level notions shared by both scripts *)
Module Py.

(** The exception classes the two scripts can meet.  [KeyboardInterrupt]
    and [SystemExit] derive from [BaseException] only; every other class
    derives from [Exception]. *)
Inductive exn_class :=
| IndexError
| KeyError
| TypeError
| AttributeError
| FileNotFoundError
| OtherException (name : string)
| KeyboardInterrupt
| SystemExit.

Record exception := Exc { exc_class : exn_class; exc_str : string }.

(** [isinstance(e, Exception)] *)
Definition isinstance_Exception (e : exception) : bool :=
  match exc_class e with
  | KeyboardInterrupt | SystemExit => false
  | _ => true
  end.

(** [isinstance(e, FileNotFoundError)] *)
Definition isinstance_FileNotFoundError (e : exception) : bool :=
  match exc_class e with
  | FileNotFoundError => true
  | _ => false
  end.

Inductive completion (A : Type) :=
| Returned (a : A)
| Raised (e : exception).
Arguments Returned {A} a.
Arguments Raised {A} e.

(** A computation over a state of type [S]. *)
Definition M (S A : Type) : Type := S → completion A * S.

Definition ret {S A} (a : A) : M S A := λ s, (Returned a, s).

Definition bind {S A B} (c : M S A) (k : A → M S B) : M S B :=
  λ s, match c s with
       | (Returned a, s') => k a s'
       | (Raised e, s') => (Raised e, s')
       end.

Definition raise {S A} (e : exception) : M S A := λ s, (Raised e, s).

Definition gets {S A} (f : S → A) : M S A := λ s, (Returned (f s), s).

Definition modify {S} (f : S → S) : M S unit := λ s, (Returned tt, f s).

Notation "'let!' x ':=' c 'in' k" := (bind c (λ x, k))
  (at level 10, x name, c at level 100, k at level 200,
   format "'[v' 'let!'  x  ':='  c  'in' '/' k ']'").

(** [for x in xs: acc = body(acc, x)], the loop-carried variables being
    [acc]. *)
Fixpoint for_each {S A B} (body : A → B → M S A) (acc : A) (xs : list B)
  : M S A :=
  match xs with
  | [] => ret acc
  | x :: xs' => let! acc' := body acc x in for_each body acc' xs'
  end.

(** [try: body  except FileNotFoundError: h1  except Exception as e: h2(e)];
    an exception that matches neither clause propagates. *)
Definition try_except {S A} (body : M S A)
    (on_FileNotFoundError : M S A) (on_Exception : exception → M S A)
  : M S A :=
  λ s, match body s with
       | (Returned a, s') => (Returned a, s')
       | (Raised e, s') =>
           if isinstance_FileNotFoundError e then on_FileNotFoundError s'
           else if isinstance_Exception e then on_Exception e s'
           else (Raised e, s')
       end.

(** References to heap objects. *)
Definition loc := nat.

(** [KeyError(key)] for a string key *)
Definition key_error (key : string) : exception :=
  Exc KeyError ("'" +:+ key +:+ "'").

End Py.
Import Py.

(** ** Reaction objects *)

(** Modelled from the spec: the reaction classes live in
    [create_kinetiscope_simulation_reactions] and [Rxn_classes], which are
    not part of the sources at hand; the record has the attributes the
    specification's data model lists, which are the ones the two scripts
    read and write. *)
Record Reaction := mkReaction {
  index : Z;
  reactants : list string;
  products : list string;
  selection_freq : Z;
  classification_list : list string;
  tag : string;
}.

Definition set_tag (new_tag : string) (r : Reaction) : Reaction :=
  {| index := index r; reactants := reactants r; products := products r;
     selection_freq := selection_freq r;
     classification_list := classification_list r; tag := new_tag |}.

(** ** [build_top_reaction_dict.py] *)
Module TopReaction.

(** The part of the Python heap the module touches: reaction objects, and
    the dictionaries from reaction index to reaction object, in insertion
    order. *)
Record memory := Memory {
  objects : loc → Reaction;
  dicts : loc → list (Z * loc);
}.

(** [d.values()] *)
Definition dict_values (d : loc) : M memory (list loc) :=
  gets (λ m, (dicts m d).*2).

(** [reaction.products], [reaction.reactants], [reaction.selection_freq] *)
Definition attr {A} (field : Reaction → A) (reaction : loc) : M memory A :=
  gets (λ m, field (objects m reaction)).

(** [top[product]] on the local result dictionary *)
Definition getitem (top : gmap string loc) (key : string) : M memory loc :=
  match top !! key with
  | Some v => ret v
  | None => raise (key_error key)
  end.

Definition should_update_reaction (top_formation_reaction : gmap string loc)
    (product : string) (reaction : loc) : M memory bool :=
  let product_is_new := bool_decide (top_formation_reaction !! product = None) in
  if product_is_new then ret true
  else
    let! current_reaction := getitem top_formation_reaction product in
    let! freq := attr selection_freq reaction in
    let! current_freq := attr selection_freq current_reaction in
    ret (current_freq <? freq).

(** The statement
    [if should_update_reaction(top, species, reaction): top[species] = reaction]
    of both builders. *)
Definition update_attempt (top : gmap string loc) (species : string)
    (reaction : loc) : M memory (gmap string loc) :=
  let! update := should_update_reaction top species reaction in
  if update : bool then ret (<[species := reaction]> top) else ret top.

Definition build_top_reaction_dict (index_reaction_dict : loc)
  : M memory (gmap string loc) :=
  let top_formation_reactions : gmap string loc := ∅ in
  let! values := dict_values index_reaction_dict in
  for_each (λ top_formation_reactions reaction,
      let! products := attr products reaction in
      for_each (λ top_formation_reactions product,
          update_attempt top_formation_reactions product reaction)
        top_formation_reactions products)
    top_formation_reactions values.

Definition build_top_reaction_dict_for_reactants (index_reaction_dict : loc)
  : M memory (gmap string loc) :=
  let top_reactant_reactions : gmap string loc := ∅ in
  let! values := dict_values index_reaction_dict in
  for_each (λ top_reactant_reactions reaction,
      let! reactants := attr reactants reaction in
      for_each (λ top_reactant_reactions reactant,
          update_attempt top_reactant_reactions reactant reaction)
        top_reactant_reactions reactants)
    top_reactant_reactions values.

(** The two parsers are imported from [associate_indicies_with_frequencies]
    and [create_kinetiscope_simulation_reactions], which are not among the
    sources; each is taken as a computation that may allocate objects and
    may raise. *)
Section Finders.
Context {index_freq : Type}
        (build_index_freq_dict : string → Z → Z → M memory index_freq)
        (build_index_reaction_dict : string → index_freq → M memory loc).

Definition find_top_formation_reactions
    (select_freq_file reaction_name_file : string) (start_index end_index : Z)
  : M memory (gmap string loc) :=
  let! index_freq_dict :=
    build_index_freq_dict select_freq_file start_index end_index in
  let! index_reaction_dict :=
    build_index_reaction_dict reaction_name_file index_freq_dict in
  let! top_formation_reactions := build_top_reaction_dict index_reaction_dict in
  ret top_formation_reactions.

Definition find_top_reactant_reactions
    (select_freq_file reaction_name_file : string) (start_index end_index : Z)
  : M memory (gmap string loc) :=
  let! index_freq_dict :=
    build_index_freq_dict select_freq_file start_index end_index in
  let! index_reaction_dict :=
    build_index_reaction_dict reaction_name_file index_freq_dict in
  let! top_reactant_reactions :=
    build_top_reaction_dict_for_reactants index_reaction_dict in
  ret top_reactant_reactions.
End Finders.

End TopReaction.

(** ** [gen_HiPRGen_rxn_dict_direct.py] *)
Module HiPRGen.

(** *** Pathway ranking *)

(** A pathway record of a [<species>_pathway.json] report. *)
Record pathway_dict := PathwayDict {
  weight : Z;
  frequency : Z;
  pathway : list Z;
}.

(** [(a, b) < (c, d)] on tuples: the first position that differs
    decides. *)
Definition tuple_lt (x y : Z * Z) : bool :=
  if x.1 =? y.1 then x.2 <? y.2 else x.1 <? y.1.

(** Python's builtin [sorted(xs, key=key)]: ascending by key and stable,
    written here as an insertion sort that places an element before the
    first element of the sorted tail whose key is not smaller. *)
Section Sorted.
Context {A K : Type} (key : A → K) (lt : K → K → bool).

Fixpoint insert_by_key (x : A) (l : list A) : list A :=
  match l with
  | [] => [x]
  | y :: l' =>
      if lt (key y) (key x) then y :: insert_by_key x l' else x :: y :: l'
  end.

Fixpoint sorted (l : list A) : list A :=
  match l with
  | [] => []
  | x :: l' => insert_by_key x (sorted l')
  end.
End Sorted.

Definition sort_pathways_list (pathways_list : list pathway_dict)
  : list pathway_dict :=
  let sorted_list :=
    sorted (λ x, (weight x, frequency x)) tuple_lt pathways_list in
  sorted_list.

(** The loop that fills [to_save_pathways] from [sorted_pathways_list];
    leaving the recursion is the [break]. *)
Fixpoint save_pathways (sorted_pathways_list : list pathway_dict)
    (to_save_pathways : list (list Z)) : list (list Z) :=
  match sorted_pathways_list with
  | [] => to_save_pathways
  | pathway_dict :: rest =>
      let pathway := pathway pathway_dict in
      let to_save_pathways := to_save_pathways ++ [pathway] in
      let number_pathways_saved := length to_save_pathways in
      if (10 <=? number_pathways_saved)%nat then to_save_pathways
      else save_pathways rest to_save_pathways
  end.

(** *** High-frequency phase-2 reactions *)

(** What [loadfn] yields for a JSON document; the numbers of a reaction
    tally are counts. *)
#[local] Unset Elimination Schemes.
Inductive json :=
| JNull
| JBool (b : bool)
| JNum (n : Z)
| JStr (s : string)
| JList (l : list json)
| JDict (items : list (string * json)).
#[local] Set Elimination Schemes.

Fixpoint json_lookup (key : string) (items : list (string * json))
  : option json :=
  match items with
  | [] => None
  | (k, v) :: items' =>
      if String.eqb key k then Some v else json_lookup key items'
  end.

Definition type_name (x : json) : string :=
  match x with
  | JNull => "NoneType"
  | JBool _ => "bool"
  | JNum _ => "int"
  | JStr _ => "str"
  | JList _ => "list"
  | JDict _ => "dict"
  end.

Definition no_attribute (x : json) (attribute : string) : exception :=
  Exc AttributeError
    ("'" +:+ type_name x +:+ "' object has no attribute '" +:+ attribute +:+ "'").

Section Phase2.
(** Everything outside the interpreter that the script acts on (the
    working directory, the files, the reaction objects). *)
Context {outside : Type}.

Record world := World {
  env : outside;
  stdout : list string;
}.

(** [print(line)] *)
Definition print (line : string) : M world unit :=
  modify (λ w, {| env := env w; stdout := stdout w ++ [line] |}).

(** The collaborators that are imported from modules outside the
    sources at hand; each may change the world and may raise. *)
Context (os_chdir : string → M world unit)
        (loadfn : string → M world json)
        (HiPRGen_Reaction : json → Z → M world loc)
        (determine_chemical_reaction_tag : loc → M world string)
        (add_reaction_if_new :
           loc → string → list loc → gset string →
           M world (list loc * gset string)).

(** [x.get(key, default)] *)
Definition get {S} (x : json) (key : string) (default_value : json)
  : M S json :=
  match x with
  | JDict items => ret (default default_value (json_lookup key items))
  | _ => raise (no_attribute x "get")
  end.

(** [x.items()] *)
Definition items {S} (x : json) : M S (list (string * json)) :=
  match x with
  | JDict items => ret items
  | _ => raise (no_attribute x "items")
  end.

(** [x >= n] for an integer [n] *)
Definition ge_int {S} (x : json) (n : Z) : M S bool :=
  match x with
  | JNum k => ret (n <=? k)
  | JBool b => ret (n <=? (if b then 1 else 0))
  | _ =>
      raise (Exc TypeError
        ("'>=' not supported between instances of '" +:+ type_name x
         +:+ "' and 'int'"))
  end.

Definition process_P2_reaction (rxn_dict : json)
    (rxns_for_simulation : list loc) (rxns_already_added : gset string)
  : M world (list loc * gset string) :=
  let! new_rxn := HiPRGen_Reaction rxn_dict 2 in
  let! tag := determine_chemical_reaction_tag new_rxn in
  add_reaction_if_new new_rxn tag rxns_for_simulation rxns_already_added.

(** The body of the [try] statement. *)
Definition add_high_frequency_P2_reactions_body (directory : string)
    (rxns_for_simulation : list loc) (rxns_already_added : gset string)
    (frequency_threshold : Z) : M world unit :=
  let! _ := os_chdir directory in
  let! data := loadfn "reaction_tally.json" in
  let! index_frequency_dict := get data "pathways" (JDict []) in
  let! index_rxn_dict := get data "reactions" (JDict []) in
  let! index_rxn_items := items index_rxn_dict in
  let! _ :=
    for_each (λ '(rxns_for_simulation, rxns_already_added) '(rxn_index, rxn_dict),
        let! rxn_frequency := get index_frequency_dict rxn_index (JNum 0) in
        let! above := ge_int rxn_frequency frequency_threshold in
        if above : bool then
          process_P2_reaction rxn_dict rxns_for_simulation rxns_already_added
        else ret (rxns_for_simulation, rxns_already_added))
      (rxns_for_simulation, rxns_already_added) index_rxn_items in
  ret tt.

Definition add_high_frequency_P2_reactions (directory : string)
    (rxns_for_simulation : list loc) (rxns_already_added : gset string)
    (frequency_threshold : Z) : M world unit :=
  try_except
    (add_high_frequency_P2_reactions_body directory rxns_for_simulation
       rxns_already_added frequency_threshold)
    (print ("Error: The directory " +:+ directory
            +:+ " or the file 'reaction_tally.json' does not exist."))
    (λ e, print ("An unexpected error occurred: " +:+ exc_str e)).
End Phase2.

(** *** Second-pass narrowing of the ionization tags *)

(** The reaction objects of the population, by reference. *)
Abbreviation heap := (loc → Reaction).

Section Narrowing.
(** [classify_ionization_reactions.narrow_down_ionization_type] is not
    among the sources; it is taken as a function that reads the
    reaction and the population it is given. *)
Variable narrow_down_ionization_type : heap → loc → list loc → string.

(** The body of the loop, for one [reaction] of the population. *)
Definition narrow_tag (rxns_for_simulation : list loc) (reaction : loc)
  : M heap unit :=
  let! tag := gets (λ h : heap, tag (h reaction)) in
  if String.eqb tag "attachment_or_recombination" then
    let! new_tag :=
      gets (λ h, narrow_down_ionization_type h reaction rxns_for_simulation) in
    modify (λ h : heap, <[reaction := set_tag new_tag (h reaction)]> h)
  else ret tt.

Definition narrow_tags (rxns_for_simulation : list loc) : M heap unit :=
  for_each (λ _ reaction, narrow_tag rxns_for_simulation reaction)
    tt rxns_for_simulation.
End Narrowing.

(** *** The nested classification dictionary *)

(** A level of the nested dictionary is a mapping from tags to levels or
    a list of reactions.  A mapping keeps its keys in insertion order. *)
#[local] Unset Elimination Schemes.
Inductive node :=
| Mapping (items : list (string * node))
| Leaf (entries : list loc).
#[local] Set Elimination Schemes.

(** [d[key]] as a lookup *)
Fixpoint dict_get (key : string) (items : list (string * node))
  : option node :=
  match items with
  | [] => None
  | (k, v) :: items' =>
      if String.eqb key k then Some v else dict_get key items'
  end.

(** [d[key] = v]: an existing key keeps its place, a new key goes last. *)
Fixpoint dict_set (key : string) (v : node) (items : list (string * node))
  : list (string * node) :=
  match items with
  | [] => [(key, v)]
  | (k, v') :: items' =>
      if String.eqb key k then (k, v) :: items'
      else (k, v') :: dict_set key v items'
  end.

Definition list_index_out_of_range : exception :=
  Exc IndexError "list index out of range".
Definition list_indices_must_be_integers : exception :=
  Exc TypeError "list indices must be integers or slices, not str".
Definition dict_has_no_append : exception :=
  Exc AttributeError "'dict' object has no attribute 'append'".

(** [key not in current_level]; on a list of reactions no entry equals a
    string key. *)
Definition not_in (key : string) : M node bool :=
  gets (λ current_level,
    match current_level with
    | Mapping items => bool_decide (dict_get key items = None)
    | Leaf _ => true
    end).

(** [current_level[key] = v] *)
Definition setitem (key : string) (v : node) : M node unit :=
  λ current_level,
    match current_level with
    | Mapping items => (Returned tt, Mapping (dict_set key v items))
    | Leaf _ => (Raised list_indices_must_be_integers, current_level)
    end.

(** [current_level = current_level[key]] followed by [rest]: the rest of
    the walk runs on the object stored under [key], which is the object
    the enclosing mapping keeps referring to. *)
Definition descend {A} (key : string) (rest : M node A) : M node A :=
  λ current_level,
    match current_level with
    | Mapping items =>
        match dict_get key items with
        | Some child =>
            let '(r, child') := rest child in
            (r, Mapping (dict_set key child' items))
        | None => (Raised (key_error key), current_level)
        end
    | Leaf _ => (Raised list_indices_must_be_integers, current_level)
    end.

(** [current_level[last_key].append(value)] *)
Definition append_at (last_key : string) (value : loc) : M node unit :=
  descend last_key (λ target,
    match target with
    | Leaf entries => (Returned tt, Leaf (entries ++ [value]))
    | Mapping _ => (Raised dict_has_no_append, target)
    end).

(** The state of the computation is [nested_dict], updated in place. *)
Fixpoint add_value_to_nested_dict (value : loc) (keys : list string)
  : M node unit :=
  match keys with
  | [] => raise list_index_out_of_range
  | [last_key] =>
      let! missing := not_in last_key in
      let! _ := (if missing : bool then setitem last_key (Leaf []) else ret tt) in
      append_at last_key value
  | key :: rest =>
      let! missing := not_in key in
      let! _ := (if missing : bool then setitem key (Mapping []) else ret tt) in
      descend key (add_value_to_nested_dict value rest)
  end.

Definition add_reaction_to_dictionary (objects : heap) (reaction : loc)
  : M node unit :=
  let classification_list := classification_list (objects reaction) in
  add_value_to_nested_dict reaction classification_list.

(** [for reaction in rxns: add_reaction_to_dictionary(reaction, tree)] *)
Definition add_reactions (objects : heap) (rxns : list loc) : M node unit :=
  for_each (λ _ reaction, add_reaction_to_dictionary objects reaction) tt rxns.

(** The node a path of keys leads to. *)
Fixpoint lookup_path (path : list string) (t : node) : option node :=
  match path with
  | [] => Some t
  | key :: path' =>
      match t with
      | Mapping items =>
          match dict_get key items with
          | Some child => lookup_path path' child
          | None => None
          end
      | Leaf _ => None
      end
  end.

(** Every leaf list of a tree with the path that leads to it (a mapping
    holds each key once). *)
Fixpoint leaves (t : node) : list (list string * list loc) :=
  match t with
  | Leaf entries => [([], entries)]
  | Mapping items =>
      (fix go (items : list (string * node)) :=
         match items with
         | [] => []
         | (k, child) :: items' =>
             map (λ pe, (k :: pe.1, pe.2)) (leaves child) ++ go items'
         end) items
  end.

(** The number of entries over all leaf lists. *)
Definition total_entries (t : node) : nat :=
  sum_list_with (λ pe, length pe.2) (leaves t).

(** [p] is a path that stops before the end of [q]. *)
Definition strict_prefix (p q : list string) : Prop :=
  ∃ key rest, q = p ++ key :: rest.

(** The trees the script can hold: the empty dictionary and what calls of
    [add_value_to_nested_dict] that return make of such a tree. *)
Inductive built : node → Prop :=
| built_empty : built (Mapping [])
| built_add t value keys t' :
    built t →
    add_value_to_nested_dict value keys t = (Returned tt, t') →
    built t'.

(** *** Classifying the population *)

Definition set_classification_list (new_list : list string) (r : Reaction)
  : Reaction :=
  {| index := index r; reactants := reactants r; products := products r;
     selection_freq := selection_freq r;
     classification_list := new_list; tag := tag r |}.

Section Classification.
(** [reaction_classification_utilities.write_reaction_classification] is
    not among the sources; it is taken as a function of the attributes of
    the reaction it is given. *)
Variable write_reaction_classification : Reaction → list string.

(** The body of the loop that fills [tagged_rxn_dict]; the state is the
    reaction objects and [tagged_rxn_dict]. *)
Definition classify_reaction (reaction : loc) : M (heap * node) unit :=
  let! classification :=
    gets (λ s : heap * node, write_reaction_classification (s.1 reaction)) in
  let! _ :=
    modify (λ s : heap * node,
      (<[reaction := set_classification_list classification (s.1 reaction)]> s.1,
       s.2)) in
  λ s, let '(r, tagged_rxn_dict) := add_reaction_to_dictionary s.1 reaction s.2 in
       (r, (s.1, tagged_rxn_dict)).

Definition classify_reactions (rxns_for_simulation : list loc)
  : M (heap * node) unit :=
  for_each (λ _ reaction, classify_reaction reaction) tt rxns_for_simulation.
End Classification.

End HiPRGen.

(** ** [gen_euvl_testset.py] *)
Module EUVL.
Import HiPRGen.

(** *** Reading the species ids *)

(** [c.isspace()] for a character whose code point is below 256. *)
Definition isspace (c : Ascii.ascii) : bool :=
  let n := Ascii.nat_of_ascii c in
  ((9 <=? n) && (n <=? 13) || (28 <=? n) && (n <=? 32)
   || (n =? 133) || (n =? 160))%nat.

(** [s.lstrip()], [s.rstrip()] and [s.strip()] *)
Fixpoint lstrip (s : string) : string :=
  match s with
  | EmptyString => EmptyString
  | String c s' => if isspace c then lstrip s' else s
  end.

Fixpoint rstrip (s : string) : string :=
  match s with
  | EmptyString => EmptyString
  | String c s' =>
      match rstrip s' with
      | EmptyString => if isspace c then EmptyString else String c EmptyString
      | r => String c r
      end
  end.

Definition strip (s : string) : string := rstrip (lstrip s).

(** [line[0:len(line)-1]] *)
Definition all_but_last (line : string) : string :=
  String.substring 0 (String.length line - 1) line.

(** The loop over the lines of [atom_mapping_set.txt]; a line is what the
    iteration over the file yields, its line break included. *)
Definition read_mol_id_list (mol_id_doc : list string) : list string :=
  foldl (λ mol_id_list line,
      match strip line with
      | EmptyString => mol_id_list
      | _ => mol_id_list ++ [all_but_last line]
      end)
    [] mol_id_doc.

(** *** Selecting the molecules and their charge variants *)

(** [m_id == mol_id] for an id read from the text file *)
Definition eq_str (x : json) (s : string) : bool :=
  match x with
  | JStr t => String.eqb t s
  | _ => false
  end.

Section Selection.
(** The molecule graphs and their isomorphism test belong to pymatgen. *)
Context {graph : Type} (isomorphic_to : graph → graph → bool).

(** The attributes of a [MoleculeEntry] that the script reads. *)
Record MoleculeEntry := {
  entry_id : json;
  mol_graph : graph;
}.

Definition select_mol_ids (mol_id_list : list string)
    (mol_entries : list MoleculeEntry) : list json :=
  foldl (λ final_mol_ids mol_id,
      foldl (λ final_mol_ids mol_entry,
          let m_id := entry_id mol_entry in
          if eq_str m_id mol_id then
            let graph := mol_graph mol_entry in
            foldl (λ final_mol_ids entry,
                let molecule_graph := mol_graph entry in
                if isomorphic_to molecule_graph graph
                then final_mol_ids ++ [entry_id entry]
                else final_mol_ids)
              final_mol_ids mol_entries
          else final_mol_ids)
        final_mol_ids mol_entries)
    [] mol_id_list.
End Selection.

(** *** Removing the orbital data from a copied entry *)

Definition to_remove : list string := ["nbo"; "alpha"; "beta"].

(** [sub in s] on strings *)
Fixpoint contains (sub s : string) : bool :=
  String.prefix sub s ||
  match s with
  | EmptyString => false
  | String _ s' => contains sub s'
  end.

Section Entries.
Context {V : Type}.

Fixpoint pop_item (name : string) (d : list (string * V))
  : option (V * list (string * V)) :=
  match d with
  | [] => None
  | (k, v) :: d' =>
      if String.eqb name k then Some (v, d')
      else match pop_item name d' with
           | Some (w, d'') => Some (w, (k, v) :: d'')
           | None => None
           end
  end.

(** [new_entry.pop(name)] *)
Definition pop (name : string) : M (list (string * V)) V :=
  λ new_entry,
    match pop_item name new_entry with
    | Some (v, rest) => (Returned v, rest)
    | None => (Raised (key_error name), new_entry)
    end.

(** The loops over the keys of [entry] and over [to_remove]; the state is
    [new_entry]. *)
Definition remove_tagged_keys (entry : list (string * V))
  : M (list (string * V)) unit :=
  for_each (λ _ name,
      for_each (λ _ remove,
          if contains remove name then
            let! val := pop name in ret tt
          else ret tt)
        tt to_remove)
    tt entry.*1.

(** [new_entry = copy.deepcopy(entry)] and the loops. *)
Definition copy_without_tagged_keys (entry : list (string * V))
  : completion unit * list (string * V) :=
  let new_entry := entry in
  remove_tagged_keys entry new_entry.
End Entries.

End EUVL.

(** * Properties *)

(** ** Running computations *)
Section MonadFacts.
Context {S : Type}.

Lemma bind_returned {A B} (c : M S A) (k : A → M S B) s a s' :
  c s = (Returned a, s') → bind c k s = k a s'.
Proof. unfold bind. by intros ->. Qed.

Lemma bind_raised {A B} (c : M S A) (k : A → M S B) s e s' :
  c s = (Raised e, s') → bind c k s = (Raised e, s').
Proof. unfold bind. by intros ->. Qed.

(** A loop whose body never raises and never writes computes a fold. *)
Lemma for_each_fold {A B} (body : A → B → M S A) (f : A → B → A) s xs :
  (∀ acc x, x ∈ xs → body acc x s = (Returned (f acc x), s)) →
  ∀ acc, for_each body acc xs s = (Returned (foldl f acc xs), s).
Proof.
  induction xs as [|x xs IH]; intros Hbody acc; simpl; [done|].
  rewrite (bind_returned _ _ s (f acc x) s); [|apply Hbody; left].
  apply IH. intros acc' y Hy. apply Hbody. by right.
Qed.
End MonadFacts.

(** ** Top-reaction tables *)
Module TopReactionFacts.
Import TopReaction.

Section Role.
(** The attribute a builder iterates over: [products] or [reactants]. *)
Variable role : Reaction → list string.
Variable m : memory.

Abbreviation freq l := (selection_freq (objects m l)).

(** What one update attempt leaves under the species it is about. *)
Definition settle (reaction : loc) (stored : option loc) : option loc :=
  match stored with
  | None => Some reaction
  | Some current => if freq current <? freq reaction then Some reaction else Some current
  end.

Definition attempt (reaction : loc) (top : gmap string loc)
    (species : string) : gmap string loc :=
  match top !! species with
  | None => <[species := reaction]> top
  | Some current =>
      if freq current <? freq reaction then <[species := reaction]> top else top
  end.

Definition top_table (values : list loc) : gmap string loc :=
  foldl (λ top reaction, foldl (attempt reaction) top (role (objects m reaction)))
    ∅ values.

Lemma should_update_reaction_run top species reaction :
  should_update_reaction top species reaction m =
    (Returned match top !! species with
              | None => true
              | Some current => freq current <? freq reaction
              end, m).
Proof.
  unfold should_update_reaction, getitem.
  destruct (top !! species) as [current|]; [|done].
  rewrite bool_decide_eq_false_2; done.
Qed.

Lemma update_attempt_run top species reaction :
  update_attempt top species reaction m =
    (Returned (attempt reaction top species), m).
Proof.
  unfold update_attempt, attempt.
  erewrite bind_returned; [|apply should_update_reaction_run].
  destruct (top !! species) as [current|]; [|done].
  by destruct (freq current <? freq reaction).
Qed.

Lemma attempt_lookup reaction top species s :
  attempt reaction top species !! s =
    if decide (s = species) then settle reaction (top !! species) else top !! s.
Proof.
  unfold attempt, settle.
  destruct (decide (s = species)) as [->|Hne];
    destruct (top !! species) as [current|] eqn:Hcur;
    try destruct (freq current <? freq reaction);
    rewrite ?lookup_insert_eq, ?lookup_insert_ne; done.
Qed.

Lemma settle_idemp reaction stored :
  settle reaction (settle reaction stored) = settle reaction stored.
Proof.
  destruct stored as [current|]; simpl.
  - destruct (freq current <? freq reaction) eqn:Hlt; simpl;
      [by rewrite Z.ltb_irrefl | by rewrite Hlt].
  - by rewrite Z.ltb_irrefl.
Qed.

(** The loop over one reaction's role list settles every species of the
    list once, however often the species occurs. *)
Lemma role_loop_lookup reaction species_list top s :
  foldl (attempt reaction) top species_list !! s =
    if decide (s ∈ species_list) then settle reaction (top !! s) else top !! s.
Proof.
  revert top. induction species_list as [|p ps IH]; intros top; simpl.
  - done.
  - rewrite IH, !attempt_lookup.
    destruct (decide (s = p)) as [->|Hne].
    + rewrite (decide_True (P := p ∈ p :: ps)) by left.
      destruct (decide (p ∈ ps)); [apply settle_idemp | done].
    + destruct (decide (s ∈ ps)) as [Hin|Hin].
      * rewrite (decide_True (P := s ∈ p :: ps)) by (by right). done.
      * rewrite (decide_False (P := s ∈ p :: ps)); [done|].
        rewrite elem_of_cons. tauto.
Qed.

Lemma top_table_snoc values reaction :
  top_table (values ++ [reaction]) =
    foldl (attempt reaction) (top_table values) (role (objects m reaction)).
Proof. unfold top_table. by rewrite foldl_snoc. Qed.

(** The builders run the fold [top_table] and leave the memory as it
    was. *)
Lemma build_run (d : loc) :
  for_each (λ top reaction,
      let! species_list := attr role reaction in
      for_each (λ top species, update_attempt top species reaction)
        top species_list)
    ∅ (dicts m d).*2 m
  = (Returned (top_table (dicts m d).*2), m).
Proof.
  unfold top_table. apply for_each_fold. intros top reaction _.
  unfold attr. erewrite bind_returned; [|reflexivity].
  apply for_each_fold. intros top' species _. apply update_attempt_run.
Qed.

(** The entry of species [S] after the reactions [values]. *)
Definition first_maximal (values : list loc) (S : string) (l : loc) : Prop :=
  ∃ i : nat,
    values !! i = Some l ∧ S ∈ role (objects m l) ∧
    ∀ (j : nat) l', values !! j = Some l' → S ∈ role (objects m l') →
      freq l' ≤ freq l ∧ (freq l' = freq l → (i ≤ j)%nat).

Lemma top_table_spec values S :
  match top_table values !! S with
  | Some l => first_maximal values S l
  | None => ∀ l', l' ∈ values → S ∉ role (objects m l')
  end.
Proof.
  induction values as [|x values IH] using rev_ind.
  - unfold top_table; simpl. rewrite lookup_empty.
    intros l' Hl'. by apply elem_of_nil in Hl'.
  - rewrite top_table_snoc, role_loop_lookup.
    destruct (decide (S ∈ role (objects m x))) as [Hin|Hin].
    + destruct (top_table values !! S) as [current|] eqn:Hcur; simpl.
      * destruct IH as (i & Hi & HiS & Hmax).
        destruct (freq current <? freq x) eqn:Hlt.
        -- apply Z.ltb_lt in Hlt.
           exists (length values). split; [|split; [done|]].
           { by rewrite lookup_app_r, Nat.sub_diag. }
           intros j l' Hj Hl'.
           destruct (decide (j < length values)%nat) as [Hlen|Hlen].
           ++ rewrite lookup_app_l in Hj by done.
              destruct (Hmax j l' Hj Hl') as [Hle _].
              split; [lia|]. intros Heq. lia.
           ++ rewrite lookup_app_r in Hj by lia.
              apply list_lookup_singleton_Some in Hj as [Hj0 <-].
              split; [lia|]. intros _. lia.
        -- apply Z.ltb_ge in Hlt.
           exists i. split; [|split; [done|]].
           { apply lookup_app_l_Some, Hi. }
           intros j l' Hj Hl'.
           destruct (decide (j < length values)%nat) as [Hlen|Hlen].
           ++ rewrite lookup_app_l in Hj by done. by apply Hmax.
           ++ rewrite lookup_app_r in Hj by lia.
              apply list_lookup_singleton_Some in Hj as [Hj0 <-].
              split; [done|]. intros _.
              apply lookup_lt_Some in Hi. lia.
      * exists (length values). split; [|split; [done|]].
        { by rewrite lookup_app_r, Nat.sub_diag. }
        intros j l' Hj Hl'.
        destruct (decide (j < length values)%nat) as [Hlen|Hlen].
        ++ rewrite lookup_app_l in Hj by done.
           exfalso. eapply IH; [|exact Hl'].
           apply list_elem_of_lookup. eauto.
        ++ rewrite lookup_app_r in Hj by lia.
           apply list_lookup_singleton_Some in Hj as [Hj0 <-].
           split; [lia|]. intros _. lia.
    + destruct (top_table values !! S) as [current|] eqn:Hcur.
      * destruct IH as (i & Hi & HiS & Hmax).
        exists i. split; [|split; [done|]].
        { apply lookup_app_l_Some, Hi. }
        intros j l' Hj Hl'.
        destruct (decide (j < length values)%nat) as [Hlen|Hlen].
        ++ rewrite lookup_app_l in Hj by done. by apply Hmax.
        ++ rewrite lookup_app_r in Hj by lia.
           apply list_lookup_singleton_Some in Hj as [Hj0 <-]. done.
      * intros l' [Hl'|Hl']%elem_of_app; [by apply IH|].
        apply list_elem_of_singleton in Hl' as ->. done.
Qed.
End Role.

Abbreviation freq m l := (selection_freq (objects m l)).

Lemma first_maximal_unique role m values S l1 l2 :
  first_maximal role m values S l1 → first_maximal role m values S l2 → l1 = l2.
Proof.
  intros (i1 & Hi1 & HS1 & Hmax1) (i2 & Hi2 & HS2 & Hmax2).
  destruct (Hmax1 i2 l2 Hi2 HS2) as [Hle1 Hfirst1].
  destruct (Hmax2 i1 l1 Hi1 HS1) as [Hle2 Hfirst2].
  assert (i1 = i2) as -> by (assert (freq m l1 = freq m l2) by lia; lia).
  congruence.
Qed.

(** The table depends on the memory only through the frequencies of the
    listed reactions and the sets of species in their role lists. *)
Lemma first_maximal_ext role role' m m' values S l :
  (∀ l, l ∈ values →
     freq m' l = freq m l ∧
     ∀ S, S ∈ role' (objects m' l) ↔ S ∈ role (objects m l)) →
  first_maximal role m values S l → first_maximal role' m' values S l.
Proof.
  intros Hagree (i & Hi & HS & Hmax).
  assert (l ∈ values) as Hl by (apply list_elem_of_lookup; eauto).
  exists i. split; [done|]. split; [by apply (Hagree l Hl)|].
  intros j l' Hj HS'.
  assert (l' ∈ values) as Hl' by (apply list_elem_of_lookup; eauto).
  destruct (Hagree l Hl) as [-> _]. destruct (Hagree l' Hl') as [-> HS''].
  apply Hmax; [done | by apply HS''].
Qed.

Lemma top_table_ext role role' m m' values :
  (∀ l, l ∈ values →
     freq m' l = freq m l ∧
     ∀ S, S ∈ role' (objects m' l) ↔ S ∈ role (objects m l)) →
  top_table role' m' values = top_table role m values.
Proof.
  intros Hagree. apply map_eq. intros S.
  pose proof (top_table_spec role m values S) as H.
  pose proof (top_table_spec role' m' values S) as H'.
  destruct (top_table role m values !! S) as [l|] eqn:E;
    destruct (top_table role' m' values !! S) as [l'|] eqn:E'; [| | |done].
  - f_equal. eapply first_maximal_unique; [exact H'|].
    by eapply first_maximal_ext.
  - destruct H as (i & Hi & HS & _).
    assert (l ∈ values) as Hl by (apply list_elem_of_lookup; eauto).
    exfalso. apply (H' l Hl). by apply (Hagree l Hl).
  - destruct H' as (i & Hi & HS & _).
    assert (l' ∈ values) as Hl by (apply list_elem_of_lookup; eauto).
    exfalso. apply (H l' Hl). by apply (Hagree l' Hl).
Qed.

Lemma build_top_reaction_dict_run m d :
  build_top_reaction_dict d m =
    (Returned (top_table products m (dicts m d).*2), m).
Proof.
  unfold build_top_reaction_dict, dict_values.
  erewrite bind_returned; [|reflexivity]. apply (build_run products).
Qed.

Lemma build_top_reaction_dict_for_reactants_run m d :
  build_top_reaction_dict_for_reactants d m =
    (Returned (top_table reactants m (dicts m d).*2), m).
Proof.
  unfold build_top_reaction_dict_for_reactants, dict_values.
  erewrite bind_returned; [|reflexivity]. apply (build_run reactants).
Qed.

(** A small table used to run the builders: reaction 0 forms A ten times,
    reaction 1 forms two A out of two B five times, reaction 2 forms A
    and C ten times. *)
Definition sample_memory : memory :=
  {| objects := λ l,
       match l with
       | 0%nat => mkReaction 1 ["B"] ["A"] 10 [] ""
       | 1%nat => mkReaction 2 ["B"; "B"] ["A"; "A"] 5 [] ""
       | _ => mkReaction 3 ["D"] ["A"; "C"] 10 [] ""
       end;
     dicts := λ _, [(1, 0%nat); (2, 1%nat); (3, 2%nat)] |}.

(** The sample table under another reference, its reactions retagged. *)
Definition sample_memory_retagged : memory :=
  {| objects := λ l, set_tag "chemical" (objects sample_memory l);
     dicts := λ d, match d with 7%nat => dicts sample_memory 0%nat | _ => [] end |}.

(** The memory in which no role list names a species twice. *)
Definition without_repeats (m : memory) : memory :=
  {| objects := λ l,
       let r := objects m l in
       {| index := index r;
          reactants := remove_dups (reactants r);
          products := remove_dups (products r);
          selection_freq := selection_freq r;
          classification_list := classification_list r;
          tag := tag r |};
     dicts := dicts m |}.

(** C1. [build_top_reaction_dict] returns, for every memory and table, a
    mapping whose keys are the species that some reaction of the table
    forms; the reaction stored for a species [S] is, among the reactions
    of the table that list [S] among their products, one of greatest
    [selection_freq], and among those of greatest [selection_freq] the
    one met first in the table's iteration order.  An entry that exists
    is replaced only by a reaction of strictly greater [selection_freq]. *)
Theorem build_top_reaction_dict_first_maximum (m : memory) (index_reaction_dict : loc) :
  ∃ top : gmap string loc,
    build_top_reaction_dict index_reaction_dict m = (Returned top, m) ∧
    (∀ S, is_Some (top !! S) ↔
          ∃ l, l ∈ (dicts m index_reaction_dict).*2 ∧ S ∈ products (objects m l)) ∧
    (∀ S l, top !! S = Some l →
       ∃ i : nat,
         (dicts m index_reaction_dict).*2 !! i = Some l ∧
         S ∈ products (objects m l) ∧
         ∀ (j : nat) l',
           (dicts m index_reaction_dict).*2 !! j = Some l' →
           S ∈ products (objects m l') →
           selection_freq (objects m l') ≤ selection_freq (objects m l) ∧
           (selection_freq (objects m l') = selection_freq (objects m l) →
            (i ≤ j)%nat)) ∧
    (∀ (table : gmap string loc) S current reaction,
       table !! S = Some current →
       update_attempt table S reaction m =
         (Returned (if bool_decide (selection_freq (objects m current)
                                    < selection_freq (objects m reaction))
                    then <[S := reaction]> table else table), m)).
Proof.
  exists (top_table products m (dicts m index_reaction_dict).*2).
  split; [apply build_top_reaction_dict_run|].
  split; [|split].
  - intros S.
    pose proof (top_table_spec products m (dicts m index_reaction_dict).*2 S) as H.
    destruct (top_table products m _ !! S) as [l|]; split.
    + intros _. destruct H as (i & Hi & HS & _).
      exists l. split; [|done]. apply list_elem_of_lookup; eauto.
    + intros _. by eexists.
    + by intros [? ?].
    + intros (l & Hl & HS). by destruct (H l Hl).
  - intros S l Hl.
    pose proof (top_table_spec products m (dicts m index_reaction_dict).*2 S) as H.
    rewrite Hl in H. exact H.
  - intros table S current reaction Hcur.
    rewrite update_attempt_run. unfold attempt. rewrite Hcur.
    destruct (Z.ltb_spec (selection_freq (objects m current))
                (selection_freq (objects m reaction))).
    + by rewrite bool_decide_eq_true_2.
    + rewrite bool_decide_eq_false_2; [done | lia].
Qed.

Lemma build_top_reaction_dict_first_maximum_witness :
  ∃ top : gmap string loc,
    build_top_reaction_dict 0%nat sample_memory = (Returned top, sample_memory) ∧
    top !! "A" = Some 0%nat ∧ top !! "C" = Some 2%nat ∧ top !! "B" = None.
Proof.
  destruct (build_top_reaction_dict_first_maximum sample_memory 0%nat)
    as (top & Hrun & _).
  exists top. split; [exact Hrun|].
  rewrite build_top_reaction_dict_run in Hrun.
  injection Hrun as <-. by vm_compute.
Defined.

(** C9. A call of [build_top_reaction_dict] returns and leaves the memory
    (the table, its keys and the reactions they refer to) as it found it;
    a second call on the same table returns the same mapping; and the
    mapping is the same in every memory in which the table lists the same
    reactions with the same products and frequencies. *)
Theorem build_top_reaction_dict_pure (m : memory) (index_reaction_dict : loc) :
  ∃ top : gmap string loc,
    build_top_reaction_dict index_reaction_dict m = (Returned top, m) ∧
    (let! first := build_top_reaction_dict index_reaction_dict in
     let! second := build_top_reaction_dict index_reaction_dict in
     ret (first, second)) m = (Returned (top, top), m) ∧
    ∀ m' d',
      (dicts m' d').*2 = (dicts m index_reaction_dict).*2 →
      (∀ l, l ∈ (dicts m index_reaction_dict).*2 →
         products (objects m' l) = products (objects m l) ∧
         selection_freq (objects m' l) = selection_freq (objects m l)) →
      build_top_reaction_dict d' m' = (Returned top, m').
Proof.
  exists (top_table products m (dicts m index_reaction_dict).*2).
  split; [apply build_top_reaction_dict_run|]. split.
  - erewrite bind_returned; [|apply build_top_reaction_dict_run].
    erewrite bind_returned; [|apply build_top_reaction_dict_run]. done.
  - intros m' d' Hvalues Hagree.
    rewrite build_top_reaction_dict_run, Hvalues. do 2 f_equal.
    apply top_table_ext. intros l Hl.
    destruct (Hagree l Hl) as [-> ->]. done.
Qed.

Lemma build_top_reaction_dict_pure_witness :
  ∃ top : gmap string loc,
    build_top_reaction_dict 0%nat sample_memory = (Returned top, sample_memory) ∧
    build_top_reaction_dict 7%nat sample_memory_retagged
      = (Returned top, sample_memory_retagged).
Proof.
  destruct (build_top_reaction_dict_pure sample_memory 0%nat)
    as (top & Hrun & _ & Hany).
  exists top. split; [exact Hrun|].
  apply Hany; [reflexivity|].
  intros l _. destruct l as [|[|l]]; split; reflexivity.
Defined.

(** C5, as stated, fails: in the sample table reaction 1 lists A twice
    among its products; when the loop reaches the second A the entry
    stored under A is reaction 0, which was met earlier with a greater
    frequency, so the attempt compares reaction 1 with reaction 0 and
    not with itself. *)
Lemma repeated_species_meets_earlier_reaction :
  ∃ top : gmap string loc,
    (let! top := for_each (λ top product, update_attempt top product 0%nat)
                   ∅ (products (objects sample_memory 0%nat)) in
     update_attempt top "A" 1%nat) sample_memory = (Returned top, sample_memory) ∧
    products (objects sample_memory 1%nat) = ["A"; "A"] ∧
    getitem top "A" sample_memory = (Returned 0%nat, sample_memory) ∧
    0%nat ≠ 1%nat.
Proof. exists {[ "A" := 0%nat ]}. by vm_compute. Qed.

(** C5, amended.  Within the loop over one reaction's role list, once a
    species has been met the entry stored under it is the reaction itself
    or a reaction whose [selection_freq] is at least as great, so that
    every later attempt for the same species and reaction leaves the
    table as it is; and both builders return on a table what they return
    when no role list names a species twice. *)
Theorem repeated_species_attempt_is_noop (m : memory) (index_reaction_dict : loc) :
  (∀ (top : gmap string loc) reaction species_list species,
     species ∈ species_list →
     ∃ top' current,
       for_each (λ top s, update_attempt top s reaction) top species_list m
         = (Returned top', m) ∧
       top' !! species = Some current ∧
       (current = reaction ∨ top !! species = Some current) ∧
       selection_freq (objects m reaction) ≤ selection_freq (objects m current) ∧
       update_attempt top' species reaction m = (Returned top', m)) ∧
  (∃ top,
     build_top_reaction_dict index_reaction_dict m = (Returned top, m) ∧
     build_top_reaction_dict index_reaction_dict (without_repeats m)
       = (Returned top, without_repeats m)) ∧
  (∃ top,
     build_top_reaction_dict_for_reactants index_reaction_dict m = (Returned top, m) ∧
     build_top_reaction_dict_for_reactants index_reaction_dict (without_repeats m)
       = (Returned top, without_repeats m)).
Proof.
  split; [|split].
  - intros top reaction species_list species Hin.
    pose proof (role_loop_lookup m reaction species_list top species) as Hlook.
    rewrite decide_True in Hlook by done.
    exists (foldl (attempt m reaction) top species_list).
    assert (∃ current,
               foldl (attempt m reaction) top species_list !! species = Some current ∧
               (current = reaction ∨ top !! species = Some current) ∧
               selection_freq (objects m reaction) ≤ selection_freq (objects m current))
      as (current & Hcur & Hwhich & Hle).
    { unfold settle in Hlook.
      destruct (top !! species) as [c|]; [|exists reaction; split_and!; auto; lia].
      destruct (Z.ltb_spec (selection_freq (objects m c))
                  (selection_freq (objects m reaction)));
        [exists reaction | exists c]; split_and!; auto; lia. }
    exists current. split_and!; try done.
    + apply for_each_fold. intros acc s _. apply update_attempt_run.
    + rewrite update_attempt_run. unfold attempt at 1. rewrite Hcur.
      destruct (Z.ltb_spec (selection_freq (objects m current))
                  (selection_freq (objects m reaction))); [lia | done].
  - eexists. split; [apply build_top_reaction_dict_run|].
    rewrite build_top_reaction_dict_run. do 2 f_equal.
    apply top_table_ext. intros l _. split; [done|].
    intros S. simpl. apply elem_of_remove_dups.
  - eexists. split; [apply build_top_reaction_dict_for_reactants_run|].
    rewrite build_top_reaction_dict_for_reactants_run. do 2 f_equal.
    apply top_table_ext. intros l _. split; [done|].
    intros S. simpl. apply elem_of_remove_dups.
Qed.

Lemma repeated_species_attempt_is_noop_witness :
  ∃ top' current,
    for_each (λ top s, update_attempt top s 1%nat) {[ "A" := 0%nat ]} ["A"; "A"]
      sample_memory = (Returned top', sample_memory) ∧
    top' !! "A" = Some current ∧
    (current = 1%nat ∨ ({[ "A" := 0%nat ]} : gmap string loc) !! "A" = Some current) ∧
    selection_freq (objects sample_memory 1%nat)
      ≤ selection_freq (objects sample_memory current) ∧
    update_attempt top' "A" 1%nat sample_memory = (Returned top', sample_memory).
Proof.
  apply (proj1 (repeated_species_attempt_is_noop sample_memory 0%nat)).
  apply list_elem_of_In. simpl. auto.
Defined.

End TopReactionFacts.

(** ** Pathway ranking, tag narrowing and batch errors *)
Module HiPRGenFacts.
Import HiPRGen.

(** *** [sorted] *)

(** [x] may stand before [y] in a list ascending by [(weight, frequency)]. *)
Definition key_le (x y : pathway_dict) : Prop :=
  weight x < weight y ∨ (weight x = weight y ∧ frequency x ≤ frequency y).

Abbreviation pathway_key := (λ x : pathway_dict, (weight x, frequency x)).

Lemma tuple_lt_spec x y :
  tuple_lt (pathway_key x) (pathway_key y) = true ↔ ¬ key_le y x.
Proof.
  unfold tuple_lt, key_le; simpl.
  destruct (Z.eqb_spec (weight x) (weight y));
    [rewrite Z.ltb_lt | rewrite Z.ltb_lt]; lia.
Qed.

#[local] Instance key_le_trans : Transitive key_le.
Proof. unfold key_le. intros x y z. lia. Qed.

Lemma insert_by_key_perm (x : pathway_dict) l :
  insert_by_key pathway_key tuple_lt x l ≡ₚ x :: l.
Proof.
  induction l as [|y l IH]; simpl; [done|].
  destruct (tuple_lt _ _); [|done].
  rewrite IH. apply Permutation_swap.
Qed.

Lemma insert_by_key_sorted (x : pathway_dict) l :
  StronglySorted key_le l →
  StronglySorted key_le (insert_by_key pathway_key tuple_lt x l).
Proof.
  induction 1 as [|y l Hsorted IH Hy]; simpl.
  - repeat constructor.
  - destruct (tuple_lt (pathway_key y) (pathway_key x)) eqn:Hlt.
    + constructor; [done|].
      apply tuple_lt_spec in Hlt.
      rewrite insert_by_key_perm. constructor; [|done].
      unfold key_le in *. lia.
    + assert (key_le x y) as Hxy.
      { destruct (decide (key_le x y)) as [|Hn]; [done|].
        apply tuple_lt_spec in Hn. congruence. }
      constructor; [by constructor|].
      constructor; [done|].
      eapply Forall_impl; [exact Hy|]. intros z Hz. by etrans.
Qed.

Lemma sorted_perm (l : list pathway_dict) :
  sorted pathway_key tuple_lt l ≡ₚ l.
Proof.
  induction l as [|x l IH]; simpl; [done|].
  by rewrite insert_by_key_perm, IH.
Qed.

Lemma sorted_sorted (l : list pathway_dict) :
  StronglySorted key_le (sorted pathway_key tuple_lt l).
Proof.
  induction l as [|x l IH]; simpl; [constructor|].
  by apply insert_by_key_sorted.
Qed.

(** Records with one and the same key keep the order of the input. *)
Lemma sorted_stable (k : Z * Z) (l : list pathway_dict) :
  filter (λ x, pathway_key x = k) (sorted pathway_key tuple_lt l)
  = filter (λ x, pathway_key x = k) l.
Proof.
  induction l as [|x l IH]; simpl; [done|].
  rewrite filter_cons, <- IH. clear IH.
  induction (sorted pathway_key tuple_lt l) as [|y l' IH]; simpl; [done|].
  destruct (tuple_lt (pathway_key y) (pathway_key x)) eqn:Hlt; [|done].
  rewrite !filter_cons, IH.
  destruct (decide (pathway_key x = k)) as [Hx|];
    destruct (decide (pathway_key y = k)) as [Hy|]; try done.
  exfalso. rewrite <- Hx in Hy. injection Hy as Hw Hf.
  apply tuple_lt_spec in Hlt. apply Hlt. unfold key_le. lia.
Qed.

(** C2. [sort_pathways_list] returns the records it is given, ascending by
    the tuple [(weight, frequency)]: of two records of the result the
    earlier has the smaller weight or the same weight and a frequency that
    is not greater.  On the three records of weight and frequency (2,5),
    (1,9), (1,3) it returns them in the order (1,3), (1,9), (2,5). *)
Theorem sort_pathways_list_ascending :
  (∀ pathways_list,
     sort_pathways_list pathways_list ≡ₚ pathways_list ∧
     StronglySorted
       (λ x y, weight x < weight y ∨
               (weight x = weight y ∧ frequency x ≤ frequency y))
       (sort_pathways_list pathways_list)) ∧
  (∀ p1 p2 p3,
     sort_pathways_list
       [PathwayDict 2 5 p1; PathwayDict 1 9 p2; PathwayDict 1 3 p3]
     = [PathwayDict 1 3 p3; PathwayDict 1 9 p2; PathwayDict 2 5 p1]).
Proof.
  split.
  - intros l. split; [apply sorted_perm | apply sorted_sorted].
  - reflexivity.
Qed.

(** *** The truncation loop *)

Lemma save_pathways_spec sorted_pathways_list to_save_pathways :
  (length to_save_pathways < 10)%nat →
  save_pathways sorted_pathways_list to_save_pathways =
    to_save_pathways
    ++ (pathway <$> take (10 - length to_save_pathways) sorted_pathways_list).
Proof.
  revert to_save_pathways.
  induction sorted_pathways_list as [|p l IH]; intros acc Hacc.
  - by rewrite take_nil, app_nil_r.
  - cbn [save_pathways]. rewrite length_app. cbn [length].
    replace (10 - length acc)%nat with (S (10 - (length acc + 1))) by lia.
    rewrite firstn_cons, fmap_cons.
    destruct (Nat.leb_spec 10 (length acc + 1)) as [Hfull|Hroom].
    + replace (10 - (length acc + 1))%nat with 0%nat by lia. by rewrite take_0.
    + rewrite IH by (rewrite length_app; simpl; lia).
      rewrite length_app. cbn [length].
      by rewrite <- app_assoc.
Qed.

(** C8. From the sorted list the loop collects the pathways of its first
    [min 10 length] records, in order: the first ten when there are at
    least ten records, all of them otherwise. *)
Theorem save_pathways_first_ten (sorted_pathways_list : list pathway_dict) :
  let to_save_pathways := save_pathways sorted_pathways_list [] in
  to_save_pathways =
    pathway <$> take (10 `min` length sorted_pathways_list) sorted_pathways_list ∧
  length to_save_pathways = (10 `min` length sorted_pathways_list)%nat ∧
  ((10 ≤ length sorted_pathways_list)%nat →
     to_save_pathways = pathway <$> take 10 sorted_pathways_list) ∧
  ((length sorted_pathways_list < 10)%nat →
     to_save_pathways = pathway <$> sorted_pathways_list).
Proof.
  cbv zeta. rewrite save_pathways_spec by (simpl; lia).
  rewrite app_nil_l. change (10 - length (@nil (list Z)))%nat with 10%nat.
  split_and!.
  - destruct (Nat.min_spec 10 (length sorted_pathways_list)) as [[? ->]|[? ->]];
      [done | by rewrite !take_ge by lia].
  - rewrite length_fmap, length_take. lia.
  - done.
  - intros. by rewrite take_ge by lia.
Qed.

Lemma save_pathways_first_ten_witness :
  save_pathways
    (sort_pathways_list
       ((λ n, PathwayDict (12 - Z.of_nat n) 1 [Z.of_nat n]) <$> seq 0 12)) []
  = (λ n, [Z.of_nat n]) <$> rev (seq 2 10).
Proof.
  pose proof (save_pathways_first_ten
    (sort_pathways_list
       ((λ n, PathwayDict (12 - Z.of_nat n) 1 [Z.of_nat n]) <$> seq 0 12)))
    as Hloop.
  cbv zeta in Hloop. destruct Hloop as (_ & _ & Hten & _).
  etrans; [apply Hten; vm_compute; lia|]. by vm_compute.
Defined.

(** *** The narrowing pass *)

Section NarrowingFacts.
Variable narrow_down_ionization_type : heap → loc → list loc → string.

(** The heap after the loop body has run for [reaction]. *)
Definition narrow_step (population : list loc) (h : heap) (reaction : loc)
  : heap :=
  if String.eqb (tag (h reaction)) "attachment_or_recombination"
  then <[reaction :=
           set_tag (narrow_down_ionization_type h reaction population)
             (h reaction)]> h
  else h.

Lemma narrow_tag_run population reaction h :
  narrow_tag narrow_down_ionization_type population reaction h
  = (Returned tt, narrow_step population h reaction).
Proof.
  unfold narrow_tag, narrow_step, bind, gets, modify, ret.
  by destruct (String.eqb _ _).
Qed.

Lemma narrow_loop_run population todo h :
  for_each (λ _ reaction,
              narrow_tag narrow_down_ionization_type population reaction)
    tt todo h
  = (Returned tt, foldl (narrow_step population) h todo).
Proof.
  revert h. induction todo as [|r todo IH]; intros h; simpl; [done|].
  erewrite bind_returned; [|apply narrow_tag_run]. apply IH.
Qed.

Lemma set_tag_tag (r : Reaction) : set_tag (tag r) r = r.
Proof. by destruct r. Qed.

Lemma narrow_step_other population h reaction l :
  l ≠ reaction → narrow_step population h reaction l = h l.
Proof.
  intros Hne. unfold narrow_step.
  destruct (String.eqb _ _); [|done]. by rewrite fn_lookup_insert_ne.
Qed.

Lemma narrow_step_untagged population h reaction l :
  tag (h l) ≠ "attachment_or_recombination" →
  narrow_step population h reaction l = h l.
Proof.
  intros Htag. destruct (decide (l = reaction)) as [->|Hne];
    [|by apply narrow_step_other].
  unfold narrow_step.
  destruct (String.eqb_spec (tag (h reaction)) "attachment_or_recombination");
    done.
Qed.

Lemma narrow_step_fields population h reaction l :
  ∃ t, narrow_step population h reaction l = set_tag t (h l).
Proof.
  destruct (decide (l = reaction)) as [->|Hne].
  - unfold narrow_step. destruct (String.eqb _ _).
    + rewrite fn_lookup_insert. by eexists.
    + exists (tag (h reaction)). by rewrite set_tag_tag.
  - exists (tag (h l)). by rewrite set_tag_tag, narrow_step_other.
Qed.

Lemma narrow_loop_untagged population todo h l :
  tag (h l) ≠ "attachment_or_recombination" →
  foldl (narrow_step population) h todo l = h l.
Proof.
  revert h. induction todo as [|r todo IH]; intros h Htag; simpl; [done|].
  rewrite IH; rewrite narrow_step_untagged; done.
Qed.

Lemma narrow_loop_other population todo h l :
  l ∉ todo → foldl (narrow_step population) h todo l = h l.
Proof.
  revert h. induction todo as [|r todo IH]; intros h Hl; simpl; [done|].
  apply not_elem_of_cons in Hl as [Hne Hl].
  rewrite IH by done. by apply narrow_step_other.
Qed.

Lemma narrow_loop_fields population todo h l :
  ∃ t, foldl (narrow_step population) h todo l = set_tag t (h l).
Proof.
  revert h. induction todo as [|r todo IH]; intros h; simpl.
  - exists (tag (h l)). by rewrite set_tag_tag.
  - destruct (IH (narrow_step population h r)) as [t ->].
    destruct (narrow_step_fields population h r l) as [t' ->].
    by exists t.
Qed.

(** C7. The narrowing pass returns; a reaction whose tag is not
    ["attachment_or_recombination"] is left as it was, tag and all other
    attributes; of any reaction at most the tag changes; and a reaction
    of the population tagged ["attachment_or_recombination"] receives
    the tag that [narrow_down_ionization_type] computes from it and the
    population, in the state the pass has reached when it meets the
    reaction. *)
Theorem narrow_tags_frame (h : heap) (rxns_for_simulation : list loc) :
  ∃ h' : heap,
    narrow_tags narrow_down_ionization_type rxns_for_simulation h
      = (Returned tt, h') ∧
    (∀ l, tag (h l) ≠ "attachment_or_recombination" → h' l = h l) ∧
    (∀ l, l ∉ rxns_for_simulation → h' l = h l) ∧
    (∀ l, index (h' l) = index (h l) ∧
          reactants (h' l) = reactants (h l) ∧
          products (h' l) = products (h l) ∧
          selection_freq (h' l) = selection_freq (h l) ∧
          classification_list (h' l) = classification_list (h l)) ∧
    (∀ (i : nat) l,
       NoDup rxns_for_simulation →
       rxns_for_simulation !! i = Some l →
       tag (h l) = "attachment_or_recombination" →
       ∃ h_i : heap,
         for_each (λ _ reaction,
             narrow_tag narrow_down_ionization_type rxns_for_simulation reaction)
           tt (take i rxns_for_simulation) h = (Returned tt, h_i) ∧
         h' l = set_tag
                  (narrow_down_ionization_type h_i l rxns_for_simulation)
                  (h l)).
Proof.
  exists (foldl (narrow_step rxns_for_simulation) h rxns_for_simulation).
  split; [apply narrow_loop_run|]. split_and!.
  - intros l Htag. by apply narrow_loop_untagged.
  - intros l Hl. by apply narrow_loop_other.
  - intros l.
    destruct (narrow_loop_fields rxns_for_simulation rxns_for_simulation h l)
      as [t ->]. done.
  - intros i l Hnodup Hi Htag.
    exists (foldl (narrow_step rxns_for_simulation) h (take i rxns_for_simulation)).
    split; [apply narrow_loop_run|].
    rewrite <- (take_drop_middle _ _ _ Hi) in Hnodup.
    apply NoDup_app in Hnodup as (_ & Hbefore & Hafter%NoDup_cons_1_1).
    rewrite <- (take_drop_middle _ _ _ Hi) at 2.
    rewrite foldl_app. simpl.
    rewrite narrow_loop_other by done.
    assert (foldl (narrow_step rxns_for_simulation) h
              (take i rxns_for_simulation) l = h l) as Hl.
    { apply narrow_loop_other. intros Hin. by apply (Hbefore l Hin); left. }
    unfold narrow_step at 1. rewrite Hl, Htag. simpl.
    by rewrite fn_lookup_insert.
Qed.
End NarrowingFacts.

(** A population of three reactions, the second tagged for narrowing. *)
Definition sample_heap : heap :=
  λ l, match l with
       | 1%nat => mkReaction 2 ["e"; "M"] ["M-"] 0 [] "attachment_or_recombination"
       | _ => mkReaction (Z.of_nat l) ["M"] ["M+"; "e"] 0 [] "positive_ionization"
       end.

Lemma narrow_tags_frame_witness :
  ∃ h' : heap,
    narrow_tags (λ _ _ _, "electron_attachment") [0; 1; 2]%nat sample_heap
      = (Returned tt, h') ∧
    h' 0%nat = sample_heap 0%nat ∧
    h' 1%nat = set_tag "electron_attachment" (sample_heap 1%nat) ∧
    h' 2%nat = sample_heap 2%nat.
Proof.
  destruct (narrow_tags_frame (λ _ _ _, "electron_attachment") sample_heap
              [0; 1; 2]%nat) as (h' & Hrun & Hother & _ & _ & Hnarrowed).
  exists h'. split; [exact Hrun|]. split_and!.
  - by apply Hother.
  - destruct (Hnarrowed 1%nat 1%nat) as (h_i & _ & ->); try done.
    apply NoDup_ListNoDup. repeat constructor; simpl; lia.
  - by apply Hother.
Defined.

(** *** Errors while adding the phase-2 reactions *)

Section Phase2Facts.
Context {outside : Type}.
Context (os_chdir : string → M (@world outside) unit)
        (loadfn : string → M (@world outside) json)
        (HiPRGen_Reaction : json → Z → M (@world outside) loc)
        (determine_chemical_reaction_tag : loc → M (@world outside) string)
        (add_reaction_if_new :
           loc → string → list loc → gset string →
           M (@world outside) (list loc * gset string)).

Abbreviation body :=
  (add_high_frequency_P2_reactions_body os_chdir loadfn HiPRGen_Reaction
     determine_chemical_reaction_tag add_reaction_if_new).
Abbreviation call :=
  (add_high_frequency_P2_reactions os_chdir loadfn HiPRGen_Reaction
     determine_chemical_reaction_tag add_reaction_if_new).

Definition printed (line : string) (w : @world outside) : @world outside :=
  {| env := env w; stdout := stdout w ++ [line] |}.

Definition not_found_message (directory : string) : string :=
  "Error: The directory " +:+ directory
  +:+ " or the file 'reaction_tally.json' does not exist.".

Lemma isinstance_FileNotFoundError_Exception e :
  isinstance_FileNotFoundError e = true → isinstance_Exception e = true.
Proof.
  unfold isinstance_FileNotFoundError, isinstance_Exception.
  by destruct (exc_class e).
Qed.

(** C6. When the directory or the file is absent ([os.chdir] or [loadfn]
    raises [FileNotFoundError]) the call prints the message that names
    the directory and returns; when any other error, an instance of
    [Exception], is raised while the directory is processed, the call
    prints a message with the error's text and returns; so the call
    never hands an [Exception] to its caller, and the code after the
    call runs. *)
Theorem add_high_frequency_P2_reactions_returns
    directory rxns_for_simulation rxns_already_added frequency_threshold
    (w : @world outside) :
  (∀ e w1,
     os_chdir directory w = (Raised e, w1) →
     isinstance_FileNotFoundError e = true →
     call directory rxns_for_simulation rxns_already_added frequency_threshold w
       = (Returned tt, printed (not_found_message directory) w1)) ∧
  (∀ w1 e w2,
     os_chdir directory w = (Returned tt, w1) →
     loadfn "reaction_tally.json" w1 = (Raised e, w2) →
     isinstance_FileNotFoundError e = true →
     call directory rxns_for_simulation rxns_already_added frequency_threshold w
       = (Returned tt, printed (not_found_message directory) w2)) ∧
  (∀ e w1,
     body directory rxns_for_simulation rxns_already_added frequency_threshold w
       = (Raised e, w1) →
     isinstance_Exception e = true →
     ∃ line,
       call directory rxns_for_simulation rxns_already_added frequency_threshold w
         = (Returned tt, printed line w1) ∧
       (isinstance_FileNotFoundError e = false →
        line = "An unexpected error occurred: " +:+ exc_str e)) ∧
  (∀ e w1,
     call directory rxns_for_simulation rxns_already_added frequency_threshold w
       = (Raised e, w1) →
     isinstance_Exception e = false) ∧
  (∀ A (next : M (@world outside) A),
     (∀ e w1,
        body directory rxns_for_simulation rxns_already_added frequency_threshold w
          = (Raised e, w1) → isinstance_Exception e = true) →
     ∃ w1,
       (let! _ := call directory rxns_for_simulation rxns_already_added
                    frequency_threshold in next) w = next w1).
Proof.
  assert (∀ e w1,
    body directory rxns_for_simulation rxns_already_added frequency_threshold w
      = (Raised e, w1) →
    isinstance_Exception e = true →
    ∃ line,
      call directory rxns_for_simulation rxns_already_added frequency_threshold w
        = (Returned tt, printed line w1) ∧
      (isinstance_FileNotFoundError e = true → line = not_found_message directory) ∧
      (isinstance_FileNotFoundError e = false →
       line = "An unexpected error occurred: " +:+ exc_str e)) as Hcaught.
  { intros e w1 Hbody He.
    unfold add_high_frequency_P2_reactions, try_except. rewrite Hbody.
    destruct (isinstance_FileNotFoundError e); [|rewrite He]; by eexists. }
  split_and!.
  - intros e w1 Hchdir He.
    destruct (Hcaught e w1) as (line & -> & -> & _); try done.
    + unfold add_high_frequency_P2_reactions_body.
      by erewrite bind_raised.
    + by apply isinstance_FileNotFoundError_Exception.
  - intros w1 e w2 Hchdir Hload He.
    destruct (Hcaught e w2) as (line & -> & -> & _); try done.
    + unfold add_high_frequency_P2_reactions_body.
      erewrite bind_returned by exact Hchdir.
      by erewrite bind_raised.
    + by apply isinstance_FileNotFoundError_Exception.
  - intros e w1 Hbody He.
    destruct (Hcaught e w1 Hbody He) as (line & Hcall & _ & Hother). eauto.
  - intros e w1. unfold add_high_frequency_P2_reactions, try_except.
    destruct (body _ _ _ _ w) as [[[]|e'] w']; [done|].
    destruct (isinstance_FileNotFoundError e'); [done|].
    destruct (isinstance_Exception e') eqn:He'; [done|]. congruence.
  - intros A next Herrors.
    destruct (body directory rxns_for_simulation rxns_already_added
                frequency_threshold w) as [[[]|e] w1] eqn:Hbody.
    + exists w1. erewrite bind_returned; [done|].
      unfold add_high_frequency_P2_reactions, try_except. by rewrite Hbody.
    + destruct (Hcaught e w1 eq_refl (Herrors e w1 eq_refl)) as (line & Hcall & _).
      eexists. by erewrite bind_returned.
Qed.
End Phase2Facts.

(** A machine on which the phase-2 directory does not exist. *)
Lemma add_high_frequency_P2_reactions_returns_witness :
  add_high_frequency_P2_reactions (outside := unit)
    (λ directory, raise (Exc FileNotFoundError "[Errno 2] No such file or directory"))
    (λ _, ret JNull) (λ _ _, ret 0%nat) (λ _, ret "") (λ _ _ l s, ret (l, s))
    "G:/My Drive/CRNs/071924_p2" [] ∅ 500 (World tt [])
  = (Returned tt,
     printed (not_found_message "G:/My Drive/CRNs/071924_p2") (World tt [])) ∧
  printed (not_found_message "G:/My Drive/CRNs/071924_p2") (World tt [])
  = World tt ["Error: The directory G:/My Drive/CRNs/071924_p2 or the file 'reaction_tally.json' does not exist."].
Proof.
  split; [|reflexivity].
  eapply (proj1 (add_high_frequency_P2_reactions_returns
                   (λ directory, raise (Exc FileNotFoundError "[Errno 2] No such file or directory"))
                   (λ _, ret JNull) (λ _ _, ret 0%nat) (λ _, ret "")
                   (λ _ _ l s, ret (l, s))
                   "G:/My Drive/CRNs/071924_p2" [] ∅ 500 (World tt [])));
    reflexivity.
Defined.

End HiPRGenFacts.

(** ** The nested classification dictionary *)
Module NestedDictFacts.
Import HiPRGen.

(** *** Dictionaries *)

Lemma dict_get_set_eq key v items :
  dict_get key (dict_set key v items) = Some v.
Proof.
  induction items as [|[k v'] items IH]; simpl.
  - by rewrite String.eqb_refl.
  - destruct (String.eqb key k) eqn:E; simpl; rewrite E; [done | exact IH].
Qed.

Lemma dict_get_set_ne key key' v items :
  key ≠ key' → dict_get key' (dict_set key v items) = dict_get key' items.
Proof.
  intros Hne. induction items as [|[k v'] items IH]; simpl.
  - destruct (String.eqb_spec key' key); [congruence | done].
  - destruct (String.eqb_spec key k) as [->|Hk]; simpl.
    + destruct (String.eqb_spec key' k); [congruence | done].
    + by rewrite IH.
Qed.

Lemma dict_set_set key v v' items :
  dict_set key v (dict_set key v' items) = dict_set key v items.
Proof.
  induction items as [|[k w] items IH]; simpl.
  - by rewrite String.eqb_refl.
  - destruct (String.eqb key k) eqn:E; simpl; rewrite E; [done | by rewrite IH].
Qed.

Lemma dict_set_id key v items :
  dict_get key items = Some v → dict_set key v items = items.
Proof.
  induction items as [|[k w] items IH]; simpl; [done|].
  destruct (String.eqb_spec key k) as [->|Hk].
  - by intros [= ->].
  - intros Hget. by rewrite IH.
Qed.

(** *** What a call that returns leaves behind *)

(** The object a walk creates where a key is missing: a list at the end
    of the path, a mapping before. *)
Definition fresh (rest : list string) : node :=
  match rest with
  | [] => Leaf []
  | _ :: _ => Mapping []
  end.

Fixpoint inserted (value : loc) (keys : list string) (t : node) : node :=
  match keys, t with
  | [], Leaf entries => Leaf (entries ++ [value])
  | [], Mapping _ => t
  | key :: rest, Mapping items =>
      Mapping (dict_set key
                 (inserted value rest (default (fresh rest) (dict_get key items)))
                 items)
  | _ :: _, Leaf _ => t
  end.

(** The walk along [keys] meets mappings up to the last key and a list,
    or nothing, there. *)
Fixpoint admits (keys : list string) (t : node) : Prop :=
  match keys, t with
  | [], Leaf _ => True
  | [], Mapping _ => False
  | key :: rest, Mapping items =>
      admits rest (default (fresh rest) (dict_get key items))
  | _ :: _, Leaf _ => False
  end.

Lemma admits_fresh rest : admits rest (fresh rest).
Proof.
  induction rest as [|k rest IH]; simpl; [done|].
  exact IH.
Qed.

Lemma add_value_to_nested_dict_cons value key key' rest :
  add_value_to_nested_dict value (key :: key' :: rest)
  = (let! missing := not_in key in
     let! _ := (if missing : bool then setitem key (Mapping []) else ret tt) in
     descend key (add_value_to_nested_dict value (key' :: rest))).
Proof. done. Qed.

Lemma add_value_to_nested_dict_run value keys t :
  keys ≠ [] → admits keys t →
  add_value_to_nested_dict value keys t = (Returned tt, inserted value keys t).
Proof.
  revert t. induction keys as [|key rest IH]; intros t Hne Hadm; [done|].
  destruct t as [items|entries]; [|done].
  destruct rest as [|key' rest].
  - (* the last key *)
    simpl in *. unfold bind, not_in, gets, append_at, descend, setitem, ret.
    destruct (dict_get key items) as [[sub|entries]|] eqn:Hget; simpl.
    + done.
    + by rewrite Hget.
    + rewrite dict_get_set_eq. by rewrite dict_set_set.
  - (* a key before the last *)
    rewrite add_value_to_nested_dict_cons. cbn [admits] in Hadm.
    unfold bind at 1, bind at 1.
    unfold not_in, gets, setitem, ret.
    destruct (dict_get key items) as [child|] eqn:Hget.
    + assert (add_value_to_nested_dict value (key' :: rest) child
              = (Returned tt, inserted value (key' :: rest) child)) as Hchild
        by (by apply IH).
      rewrite bool_decide_eq_false_2 by done.
      unfold descend. rewrite Hget, Hchild.
      cbn [inserted]. by rewrite Hget.
    + assert (add_value_to_nested_dict value (key' :: rest) (Mapping [])
              = (Returned tt, inserted value (key' :: rest) (Mapping []))) as Hchild
        by (by apply IH).
      rewrite bool_decide_eq_true_2 by done.
      unfold descend. rewrite dict_get_set_eq, Hchild.
      cbn [inserted]. by rewrite dict_set_set, Hget.
Qed.

(** *** Calls that raise *)

Lemma add_value_to_nested_dict_empty value t :
  add_value_to_nested_dict value [] t = (Raised list_index_out_of_range, t).
Proof. done. Qed.

Lemma add_value_to_nested_dict_on_list value keys entries :
  keys ≠ [] →
  add_value_to_nested_dict value keys (Leaf entries)
  = (Raised list_indices_must_be_integers, Leaf entries).
Proof. destruct keys as [|key [|key' rest]]; done. Qed.

Lemma add_value_to_nested_dict_through_list value keys t p entries :
  strict_prefix p keys → lookup_path p t = Some (Leaf entries) →
  add_value_to_nested_dict value keys t
  = (Raised list_indices_must_be_integers, t).
Proof.
  revert keys t. induction p as [|k p IH]; intros keys t (key & rest & ->) Hp.
  - simpl in Hp. injection Hp as ->.
    by apply add_value_to_nested_dict_on_list.
  - simpl in Hp. destruct t as [items|]; [|done].
    destruct (dict_get k items) as [child|] eqn:Hget; [|done].
    assert (add_value_to_nested_dict value (p ++ key :: rest) child
            = (Raised list_indices_must_be_integers, child)) as Hchild.
    { apply IH; [by exists key, rest | done]. }
    change ((k :: p) ++ key :: rest) with (k :: (p ++ key :: rest)).
    destruct (p ++ key :: rest) as [|key' rest'] eqn:Hrest;
      [by destruct p|].
    rewrite add_value_to_nested_dict_cons.
    unfold bind at 1, bind at 1. unfold not_in, gets, ret, descend.
    rewrite Hget, bool_decide_eq_false_2 by done.
    rewrite Hget, Hchild. by rewrite dict_set_id.
Qed.

Lemma add_value_to_nested_dict_onto_mapping value keys t items :
  keys ≠ [] → lookup_path keys t = Some (Mapping items) →
  add_value_to_nested_dict value keys t = (Raised dict_has_no_append, t).
Proof.
  revert t. induction keys as [|key rest IH]; intros t Hne Hp; [done|].
  simpl in Hp. destruct t as [items'|]; [|done].
  destruct (dict_get key items') as [child|] eqn:Hget; [|done].
  destruct rest as [|key' rest].
  - simpl in Hp. injection Hp as ->.
    simpl. unfold bind, not_in, gets, ret, append_at, descend.
    rewrite Hget. simpl. rewrite Hget. by rewrite dict_set_id.
  - rewrite add_value_to_nested_dict_cons.
    unfold bind at 1, bind at 1. unfold not_in, gets, ret, descend.
    rewrite Hget, bool_decide_eq_false_2 by done.
    rewrite Hget, (IH child) by done. by rewrite dict_set_id.
Qed.

(** A walk is admitted, or runs through a list, or ends on a mapping. *)
Lemma admits_or_conflict keys t :
  keys ≠ [] →
  admits keys t ∨
  (∃ p entries, strict_prefix p keys ∧ lookup_path p t = Some (Leaf entries)) ∨
  (∃ items, lookup_path keys t = Some (Mapping items)).
Proof.
  revert t. induction keys as [|key rest IH]; intros t Hne; [done|].
  destruct t as [items|entries].
  - destruct (dict_get key items) as [child|] eqn:Hget.
    + destruct rest as [|key' rest].
      * destruct child as [sub|entries].
        -- right; right. exists sub. simpl. by rewrite Hget.
        -- left. simpl. by rewrite Hget.
      * destruct (IH child) as [Hadm|[(p & entries & (k & r & Hp) & Hleaf)|[sub Hsub]]];
          [done | | |].
        -- left. simpl. by rewrite Hget.
        -- right; left. exists (key :: p), entries. split.
           ++ exists k, r. simpl. by rewrite Hp.
           ++ simpl. by rewrite Hget.
        -- right; right. exists sub. simpl. by rewrite Hget.
    + left. simpl. rewrite Hget. apply admits_fresh.
  - right; left. exists [], entries. split; [by exists key, rest | done].
Qed.

(** A call returns exactly when the walk is admitted. *)
Lemma add_value_to_nested_dict_returns value keys t t' :
  add_value_to_nested_dict value keys t = (Returned tt, t') →
  keys ≠ [] ∧ admits keys t ∧ t' = inserted value keys t.
Proof.
  intros Hrun. destruct keys as [|key rest]; [done|].
  split; [done|].
  destruct (admits_or_conflict (key :: rest) t)
    as [Hadm|[(p & entries & Hp & Hleaf)|[sub Hsub]]]; [done| | |].
  - split; [done|].
    rewrite add_value_to_nested_dict_run in Hrun by done. congruence.
  - by rewrite (add_value_to_nested_dict_through_list _ _ _ _ _ Hp Hleaf) in Hrun.
  - rewrite (add_value_to_nested_dict_onto_mapping value (key :: rest) t sub) in Hrun;
      done.
Qed.

(** *** The tree after a call that returns *)

(** The entries of the list, and the items of the mapping, that a lookup
    finds; none when it finds nothing of the kind. *)
Definition entries_at (found : option node) : list loc :=
  match found with
  | Some (Leaf entries) => entries
  | _ => []
  end.

Definition items_at (found : option node) : list (string * node) :=
  match found with
  | Some (Mapping items) => items
  | _ => []
  end.

Lemma lookup_path_app p q t :
  lookup_path (p ++ q) t = lookup_path p t ≫= lookup_path q.
Proof.
  revert t. induction p as [|k p IH]; intros t; simpl; [done|].
  destruct t as [items|]; [|done].
  destruct (dict_get k items); [apply IH | done].
Qed.

Lemma lookup_path_fresh_None key q rest :
  lookup_path (key :: q) (fresh rest) = None.
Proof. by destruct rest. Qed.

Lemma inserted_lookup value keys t :
  admits keys t →
  lookup_path keys (inserted value keys t)
  = Some (Leaf (entries_at (lookup_path keys t) ++ [value])).
Proof.
  revert t. induction keys as [|key rest IH]; intros t Hadm;
    destruct t as [items|entries]; try done.
  cbn [inserted lookup_path]. rewrite dict_get_set_eq.
  cbn [admits] in Hadm. rewrite IH by done.
  destruct (dict_get key items) as [child|]; [done|].
  simpl. by destruct rest.
Qed.

Lemma inserted_frame value keys t q :
  admits keys t → ¬ q `prefix_of` keys →
  lookup_path q (inserted value keys t) = lookup_path q t.
Proof.
  revert t q. induction keys as [|key rest IH]; intros t q Hadm Hq;
    destruct t as [items|entries]; try done.
  - destruct q; [|done]. by destruct Hq.
  - destruct q as [|k q]; [destruct Hq; apply prefix_nil|].
    cbn [inserted lookup_path]. cbn [admits] in Hadm.
    destruct (decide (key = k)) as [->|Hne].
    + rewrite dict_get_set_eq.
      assert (¬ q `prefix_of` rest) as Hq'.
      { intros Hpre. apply Hq. by apply prefix_cons. }
      rewrite IH by done.
      destruct (dict_get k items) as [child|]; [done|]. simpl.
      destruct q as [|k' q]; [destruct Hq'; apply prefix_nil|].
      apply lookup_path_fresh_None.
    + by rewrite dict_get_set_ne.
Qed.

Lemma inserted_levels value keys t q key rest :
  admits keys t → keys = q ++ key :: rest →
  ∃ child,
    lookup_path q (inserted value keys t)
    = Some (Mapping (dict_set key child (items_at (lookup_path q t)))).
Proof.
  revert keys t. induction q as [|k q IH]; intros keys t Hadm ->;
    destruct t as [items|entries]; try done.
  - simpl. by eexists.
  - change ((k :: q) ++ key :: rest) with (k :: (q ++ key :: rest)) in *.
    cbn [inserted lookup_path]. cbn [admits] in Hadm.
    rewrite dict_get_set_eq.
    destruct (IH _ _ Hadm eq_refl) as [child ->]. exists child.
    destruct (dict_get k items) as [sub|]; [done|]. simpl.
    destruct q as [|k' q]; simpl; [done|].
    by destruct (q ++ key :: rest).
Qed.

Lemma inserted_admits value keys t :
  admits keys t → admits keys (inserted value keys t).
Proof.
  revert t. induction keys as [|key rest IH]; intros t Hadm;
    destruct t as [items|entries]; try done.
  cbn [inserted admits]. rewrite dict_get_set_eq. simpl.
  by apply IH.
Qed.

Lemma lookup_path_strict_prefix p q t n :
  strict_prefix p q → lookup_path q t = Some n →
  ∃ items, lookup_path p t = Some (Mapping items).
Proof.
  intros (key & rest & ->). rewrite lookup_path_app.
  destruct (lookup_path p t) as [[items|entries]|]; simpl; [eauto|done..].
Qed.

(** *** Trees built from the empty dictionary *)

Fixpoint node_ind' (P : node → Prop)
    (Hleaf : ∀ entries, P (Leaf entries))
    (Hmapping : ∀ items, Forall (λ kv, P kv.2) items → P (Mapping items))
    (t : node) : P t :=
  match t with
  | Leaf entries => Hleaf entries
  | Mapping items =>
      Hmapping items
        ((fix children (items : list (string * node))
            : Forall (λ kv, P kv.2) items :=
            match items with
            | [] => @List.Forall_nil _ (λ kv, P kv.2)
            | kv :: items' =>
                @List.Forall_cons _ (λ kv, P kv.2) kv items'
                  (node_ind' P Hleaf Hmapping kv.2) (children items')
            end) items)
  end.

(** Below a grounded node every mapping holds a key, so that every
    branch ends in a list. *)
#[local] Unset Elimination Schemes.
Inductive grounded : node → Prop :=
| grounded_leaf entries : grounded (Leaf entries)
| grounded_mapping items :
    items ≠ [] → Forall (λ kv, grounded kv.2) items → grounded (Mapping items).
#[local] Set Elimination Schemes.

Definition rooted (t : node) : Prop :=
  ∃ items, t = Mapping items ∧ Forall (λ kv, grounded kv.2) items.

Lemma dict_get_Forall (P : node → Prop) key items child :
  Forall (λ kv, P kv.2) items → dict_get key items = Some child → P child.
Proof.
  induction 1 as [|[k v] items Hv _ IH]; simpl; [done|].
  destruct (String.eqb key k); [by intros [= <-] | exact IH].
Qed.

Lemma dict_set_Forall (P : node → Prop) key v items :
  Forall (λ kv, P kv.2) items → P v →
  Forall (λ kv, P kv.2) (dict_set key v items).
Proof.
  intros Hitems Hv. induction Hitems as [|[k w] items Hw Hitems IH]; simpl.
  - by apply Forall_singleton.
  - destruct (String.eqb key k); apply Forall_cons; by split.
Qed.

Lemma dict_set_nonempty key v items : dict_set key v items ≠ [].
Proof. destruct items as [|[k w] items]; simpl; [done|]. by destruct (String.eqb _ _). Qed.

Lemma inserted_grounded value keys t :
  admits keys t → grounded t ∨ t = fresh keys →
  grounded (inserted value keys t).
Proof.
  revert t. induction keys as [|key rest IH]; intros t Hadm Ht;
    destruct t as [items|entries]; try done.
  - constructor.
  - cbn [inserted]. cbn [admits] in Hadm.
    assert (Forall (λ kv, grounded kv.2) items) as Hitems.
    { destruct Ht as [Ht|Ht]; [by inversion Ht|].
      injection Ht as ->. constructor. }
    constructor; [apply dict_set_nonempty|].
    apply dict_set_Forall; [done|]. apply IH; [done|].
    destruct (dict_get key items) as [child|] eqn:Hget; simpl; [left|by right].
    by eapply (dict_get_Forall grounded).
Qed.

Lemma inserted_rooted value keys t :
  keys ≠ [] → admits keys t → rooted t → rooted (inserted value keys t).
Proof.
  intros Hne Hadm (items & -> & Hitems).
  destruct keys as [|key rest]; [done|].
  cbn [inserted]. cbn [admits] in Hadm. eexists. split; [done|].
  apply dict_set_Forall; [done|]. apply inserted_grounded; [done|].
  destruct (dict_get key items) as [child|] eqn:Hget; simpl; [left|by right].
  by eapply (dict_get_Forall grounded).
Qed.

Lemma built_rooted t : built t → rooted t.
Proof.
  induction 1 as [|t value keys t' _ IH Hrun].
  - exists []. by split.
  - apply add_value_to_nested_dict_returns in Hrun as (Hne & Hadm & ->).
    by apply inserted_rooted.
Qed.

Lemma grounded_lookup_path keys t n :
  grounded t → lookup_path keys t = Some n → grounded n.
Proof.
  revert t. induction keys as [|key rest IH]; intros t Ht; simpl.
  - by intros [= <-].
  - destruct Ht as [|items _ Hitems]; [done|].
    destruct (dict_get key items) as [child|] eqn:Hget; [|done].
    apply IH. by eapply (dict_get_Forall grounded).
Qed.

Lemma grounded_has_leaf t :
  grounded t →
  ∃ p entries,
    lookup_path p t = Some (Leaf entries) ∧ (∀ items, t = Mapping items → p ≠ []).
Proof.
  induction t as [entries|items IH] using node_ind'; intros Ht.
  - exists [], entries. by split.
  - inversion Ht as [|? Hne Hitems]; subst.
    destruct items as [|[k child] items]; [done|].
    apply Forall_cons_1 in IH as [IH _]. apply Forall_cons_1 in Hitems as [Hchild _].
    destruct (IH Hchild) as (p & entries & Hp & _).
    exists (k :: p), entries. split; [|done].
    simpl. by rewrite String.eqb_refl.
Qed.

(** In a tree built from the empty dictionary a path that ends on a
    mapping goes on to some list. *)
Lemma rooted_mapping_has_leaf keys t items :
  rooted t → keys ≠ [] → lookup_path keys t = Some (Mapping items) →
  ∃ p entries, strict_prefix keys p ∧ lookup_path p t = Some (Leaf entries).
Proof.
  intros (top & -> & Htop) Hne Hkeys.
  destruct keys as [|key rest]; [done|]. simpl in Hkeys.
  destruct (dict_get key top) as [child|] eqn:Hget; [|done].
  assert (grounded (Mapping items)) as Hhere.
  { eapply grounded_lookup_path; [|exact Hkeys].
    by eapply (dict_get_Forall grounded). }
  destruct (grounded_has_leaf _ Hhere) as (p & entries & Hp & Hnonempty).
  destruct p as [|k p]; [by destruct (Hnonempty items)|].
  exists ((key :: rest) ++ k :: p), entries. split; [by exists k, p|].
  rewrite lookup_path_app. simpl. rewrite Hget. simpl. by rewrite Hkeys.
Qed.

Lemma conflict_free_admits keys t :
  keys ≠ [] →
  (∀ p entries, strict_prefix p keys → lookup_path p t ≠ Some (Leaf entries)) →
  (∀ items, lookup_path keys t ≠ Some (Mapping items)) →
  admits keys t.
Proof.
  intros Hne Hlists Hmapping.
  destruct (admits_or_conflict keys t Hne)
    as [Hadm|[(p & entries & Hp & Hleaf)|[items Hitems]]]; [done| |].
  - by destruct (Hlists p entries).
  - by destruct (Hmapping items).
Qed.

(** A tree with one classified reaction, and a reaction whose
    classification goes on below the list that holds the first. *)
Definition sample_tree : node :=
  Mapping [("ionization", Leaf [0%nat])].

(** C3, as stated, fails: reaction 1 has the non-empty classification
    [ionization, positive_ionization], but in the sample tree the key
    [ionization] holds a list; the call raises [TypeError] and leaves the
    tree as it was, with reaction 1 in no list. *)
Lemma add_value_to_nested_dict_stopped_by_list :
  add_value_to_nested_dict 1%nat ["ionization"; "positive_ionization"] sample_tree
  = (Raised list_indices_must_be_integers, sample_tree).
Proof. reflexivity. Qed.

(** C3, amended.  For a non-empty sequence of keys that meets no list
    before its last key and no mapping at its last key, the call returns;
    afterwards the keys lead to a list that holds the entries it held
    before (none if there was no such list) followed by the new value;
    every level before the last is a mapping that has kept its items (it
    has none if it did not exist) but for the item under the next key;
    what any path that is not a prefix of the keys leads to is as before;
    and a second call with the same value and keys returns and leaves the
    value twice at the end of the same list. *)
Theorem add_value_to_nested_dict_appends value keys t :
  keys ≠ [] →
  (∀ p entries, strict_prefix p keys → lookup_path p t ≠ Some (Leaf entries)) →
  (∀ items, lookup_path keys t ≠ Some (Mapping items)) →
  ∃ t',
    add_value_to_nested_dict value keys t = (Returned tt, t') ∧
    lookup_path keys t'
      = Some (Leaf (entries_at (lookup_path keys t) ++ [value])) ∧
    (∀ q key rest, keys = q ++ key :: rest →
       ∃ child,
         lookup_path q t'
         = Some (Mapping (dict_set key child (items_at (lookup_path q t))))) ∧
    (∀ q, ¬ q `prefix_of` keys → lookup_path q t' = lookup_path q t) ∧
    ∃ t'',
      add_value_to_nested_dict value keys t' = (Returned tt, t'') ∧
      lookup_path keys t''
        = Some (Leaf (entries_at (lookup_path keys t) ++ [value; value])).
Proof.
  intros Hne Hlists Hmapping.
  assert (admits keys t) as Hadm by by apply conflict_free_admits.
  exists (inserted value keys t).
  split; [by apply add_value_to_nested_dict_run|].
  split; [by apply inserted_lookup|].
  split; [intros q key rest Hq; by eapply inserted_levels|].
  split; [intros q Hq; by apply inserted_frame|].
  exists (inserted value keys (inserted value keys t)). split.
  - apply add_value_to_nested_dict_run; [done|]. by apply inserted_admits.
  - rewrite inserted_lookup by by apply inserted_admits.
    rewrite inserted_lookup by done. simpl. by rewrite <- app_assoc.
Qed.

Lemma add_value_to_nested_dict_appends_witness :
  ∃ t',
    add_value_to_nested_dict 1%nat ["chemical"; "unimolecular"] sample_tree
      = (Returned tt, t') ∧
    t' = Mapping [("ionization", Leaf [0%nat]);
                  ("chemical", Mapping [("unimolecular", Leaf [1%nat])])] ∧
    ∃ t'',
      add_value_to_nested_dict 1%nat ["chemical"; "unimolecular"] t'
        = (Returned tt, t'') ∧
      lookup_path ["chemical"; "unimolecular"] t'' = Some (Leaf [1%nat; 1%nat]).
Proof.
  destruct (add_value_to_nested_dict_appends 1%nat ["chemical"; "unimolecular"]
              sample_tree) as (t' & Hrun & _ & _ & _ & t'' & Hrun' & Htwice).
  - done.
  - intros p entries (key & rest & Hp).
    destruct p as [|k [|k' p]]; [done| |by destruct p].
    injection Hp as <- _. done.
  - done.
  - exists t'. split; [exact Hrun|].
    split; [by injection Hrun as <-|].
    exists t''. by split.
Defined.

(** A tree in which a branch was declared before anything was classified
    under it: the key [ionization] holds an empty mapping. *)
Definition declared_tree : node :=
  Mapping [("ionization", Mapping [])].

(** C10, as stated, fails: in the declared tree the only path is
    [ionization]; the non-empty sequence of keys [ionization] neither stops
    before the end of a path of the tree nor goes on below one, and no path
    leads to a list at all, yet the call raises [AttributeError]: the walk
    finds a mapping where it needs a list. *)
Lemma add_value_to_nested_dict_onto_empty_mapping :
  (["ionization"] : list string) ≠ [] ∧
  (∀ p n, p ≠ [] → lookup_path p declared_tree = Some n →
     ¬ strict_prefix p ["ionization"] ∧ ¬ strict_prefix ["ionization"] p) ∧
  add_value_to_nested_dict 1%nat ["ionization"] declared_tree
  = (Raised dict_has_no_append, declared_tree).
Proof.
  split; [done|]. split; [|reflexivity].
  intros p n Hne Hp.
  assert (p = ["ionization"]) as ->.
  { destruct p as [|k p]; [done|]. simpl in Hp.
    destruct (String.eqb_spec k "ionization") as [->|]; [|done].
    by destruct p. }
  split; intros (key & rest & Hpre); done.
Qed.

(** C10, amended.  With an empty sequence of keys the call raises
    [IndexError]; when a path that leads to a list stops before the end of
    the keys the call raises [TypeError]; when the keys lead to a mapping,
    as they do when they stop before the end of a path that leads to a
    list, the call raises [AttributeError]; in each case the tree is left
    as it was.  On every tree the call returns for a non-empty sequence of
    keys that meets no list before its last key and no mapping at its last
    key, and the keys then lead to the list with the value at its end.  On
    a tree built from the empty dictionary by calls of the function, the
    call returns for every non-empty sequence of keys that neither stops
    before the end of a path that leads to a list nor goes on below one. *)
Theorem add_value_to_nested_dict_partial value keys t :
  (keys = [] →
     add_value_to_nested_dict value keys t
     = (Raised list_index_out_of_range, t)) ∧
  (∀ p entries,
     lookup_path p t = Some (Leaf entries) → strict_prefix p keys →
     add_value_to_nested_dict value keys t
     = (Raised list_indices_must_be_integers, t)) ∧
  (∀ p entries,
     lookup_path p t = Some (Leaf entries) → strict_prefix keys p →
     keys ≠ [] →
     add_value_to_nested_dict value keys t = (Raised dict_has_no_append, t)) ∧
  (∀ items,
     lookup_path keys t = Some (Mapping items) → keys ≠ [] →
     add_value_to_nested_dict value keys t = (Raised dict_has_no_append, t)) ∧
  (keys ≠ [] →
     (∀ p entries, strict_prefix p keys → lookup_path p t ≠ Some (Leaf entries)) →
     (∀ items, lookup_path keys t ≠ Some (Mapping items)) →
     ∃ t',
       add_value_to_nested_dict value keys t = (Returned tt, t') ∧
       lookup_path keys t'
       = Some (Leaf (entries_at (lookup_path keys t) ++ [value]))) ∧
  (built t → keys ≠ [] →
     (∀ p entries,
        lookup_path p t = Some (Leaf entries) →
        ¬ strict_prefix p keys ∧ ¬ strict_prefix keys p) →
     ∃ t', add_value_to_nested_dict value keys t = (Returned tt, t') ∧ built t').
Proof.
  split_and!.
  - intros ->. apply add_value_to_nested_dict_empty.
  - intros p entries Hp Hpre.
    by eapply add_value_to_nested_dict_through_list.
  - intros p entries Hp Hpre Hne.
    destruct (lookup_path_strict_prefix _ _ _ _ Hpre Hp) as [items Hitems].
    by eapply add_value_to_nested_dict_onto_mapping.
  - intros items Hitems Hne.
    by eapply add_value_to_nested_dict_onto_mapping.
  - intros Hne Hlists Hmapping.
    assert (admits keys t) as Hadm by by apply conflict_free_admits.
    exists (inserted value keys t).
    split; [by apply add_value_to_nested_dict_run | by apply inserted_lookup].
  - intros Hbuilt Hne Hfree.
    assert (admits keys t) as Hadm.
    { apply conflict_free_admits; [done| |].
      - intros p entries Hpre Hp. by destruct (Hfree p entries Hp).
      - intros items Hitems.
        destruct (rooted_mapping_has_leaf keys t items)
          as (p & entries & Hpre & Hp); [by apply built_rooted|done..|].
        by destruct (Hfree p entries Hp). }
    exists (inserted value keys t).
    assert (add_value_to_nested_dict value keys t
            = (Returned tt, inserted value keys t)) as Hrun
      by by apply add_value_to_nested_dict_run.
    split; [done|]. by eapply built_add.
Qed.

Lemma sample_tree_built : built sample_tree.
Proof.
  apply (built_add (Mapping []) 0%nat ["ionization"]);
    [apply built_empty | reflexivity].
Qed.

Lemma add_value_to_nested_dict_partial_witness :
  add_value_to_nested_dict 1%nat [] sample_tree
    = (Raised list_index_out_of_range, sample_tree) ∧
  add_value_to_nested_dict 1%nat ["ionization"; "positive_ionization"] sample_tree
    = (Raised list_indices_must_be_integers, sample_tree) ∧
  add_value_to_nested_dict 1%nat ["ionization"] declared_tree
    = (Raised dict_has_no_append, declared_tree) ∧
  (∃ t', add_value_to_nested_dict 1%nat ["ionization"; "positive_ionization"]
           declared_tree = (Returned tt, t') ∧
         lookup_path ["ionization"; "positive_ionization"] t'
         = Some (Leaf [1%nat])) ∧
  (∃ t', add_value_to_nested_dict 1%nat ["chemical"; "unimolecular"] sample_tree
         = (Returned tt, t') ∧ built t').
Proof.
  split_and!.
  - by apply (proj1 (add_value_to_nested_dict_partial 1%nat [] sample_tree)).
  - eapply (proj1 (proj2 (add_value_to_nested_dict_partial 1%nat
                            ["ionization"; "positive_ionization"] sample_tree))
              ["ionization"]); [reflexivity|].
    by exists "positive_ionization", [].
  - by eapply (proj1 (proj2 (proj2 (proj2
                 (add_value_to_nested_dict_partial 1%nat ["ionization"]
                    declared_tree))))).
  - apply (proj1 (proj2 (proj2 (proj2 (proj2
             (add_value_to_nested_dict_partial 1%nat
                ["ionization"; "positive_ionization"] declared_tree))))));
      [done| |done].
    intros p entries (key & rest & Hpre).
    destruct p as [|k [|k' p]]; [done| |by destruct p].
    injection Hpre as <- _. done.
  - apply (proj2 (proj2 (proj2 (proj2 (proj2
             (add_value_to_nested_dict_partial 1%nat
                ["chemical"; "unimolecular"] sample_tree))))));
      [apply sample_tree_built | done |].
    intros p entries Hp.
    assert (p = ["ionization"]) as ->.
    { destruct p as [|k p]; [done|]. simpl in Hp.
      destruct (String.eqb_spec k "ionization") as [->|]; [|done].
      by destruct p. }
    split; intros (key & rest & Hpre); [done|].
    by destruct rest.
Defined.

(** *** The leaf lists of a tree *)

Definition below (key : string) (pe : list string * list loc)
  : list string * list loc :=
  (key :: pe.1, pe.2).

Fixpoint leaves_items (items : list (string * node))
  : list (list string * list loc) :=
  match items with
  | [] => []
  | (key, child) :: items' => (below key <$> leaves child) ++ leaves_items items'
  end.

Lemma leaves_Mapping items : leaves (Mapping items) = leaves_items items.
Proof.
  induction items as [|[key child] items IH]; [done|].
  simpl in *. by rewrite IH.
Qed.

Lemma lookup_path_leaves p t entries :
  lookup_path p t = Some (Leaf entries) → (p, entries) ∈ leaves t.
Proof.
  revert t. induction p as [|key p IH]; intros t; simpl.
  - intros [= ->]. simpl. by left.
  - destruct t as [items|]; [|done]. rewrite leaves_Mapping.
    induction items as [|[k child] items IHitems]; simpl; [done|].
    destruct (String.eqb_spec key k) as [->|Hne].
    + intros Hchild. apply elem_of_app. left.
      apply (list_elem_of_fmap_2 (below k) _ (p, entries)). by apply IH.
    + intros Hrest. apply elem_of_app. right. by apply IHitems.
Qed.

Lemma leaves_inserted_fresh value keys :
  leaves (inserted value keys (fresh keys)) = [(keys, [value])].
Proof.
  induction keys as [|key rest IH]; [done|].
  cbn [fresh inserted dict_get dict_set default]. rewrite leaves_Mapping.
  simpl. by rewrite IH.
Qed.

Lemma leaves_items_set_new key v items :
  dict_get key items = None →
  leaves_items (dict_set key v items)
  = leaves_items items ++ (below key <$> leaves v).
Proof.
  induction items as [|[k w] items IH]; simpl.
  - intros _. by rewrite app_nil_r.
  - destruct (String.eqb key k); [done|].
    intros Hget. simpl. by rewrite IH, app_assoc.
Qed.

Lemma leaves_items_set_existing key v child extra items :
  dict_get key items = Some child →
  leaves v ≡ₚ leaves child ++ extra →
  leaves_items (dict_set key v items)
  ≡ₚ leaves_items items ++ (below key <$> extra).
Proof.
  intros Hget Hv. induction items as [|[k w] items IH]; simpl in *; [done|].
  destruct (String.eqb_spec key k) as [->|Hne].
  - injection Hget as ->. simpl. rewrite Hv, fmap_app.
    rewrite <- !app_assoc. f_equiv. apply Permutation_app_comm.
  - simpl. rewrite IH by done. by rewrite app_assoc.
Qed.

Lemma leaves_inserted value keys t :
  admits keys t → lookup_path keys t = None →
  leaves (inserted value keys t) ≡ₚ leaves t ++ [(keys, [value])].
Proof.
  revert t. induction keys as [|key rest IH]; intros t Hadm Hnone; [done|].
  destruct t as [items|]; [|done].
  cbn [inserted]. cbn [admits] in Hadm. simpl in Hnone.
  rewrite !leaves_Mapping.
  destruct (dict_get key items) as [child|] eqn:Hget; simpl in Hadm |- *.
  - rewrite (leaves_items_set_existing key _ child [(rest, [value])]); try done.
    by apply IH.
  - by rewrite leaves_items_set_new, leaves_inserted_fresh.
Qed.

(** *** One reaction after another from the empty dictionary *)

Section AddReactions.
Variable objects : heap.

Abbreviation path_of := (λ r : loc, classification_list (objects r)).

(** The tree that holds the reactions [done], each alone in the list
    its classification leads to. *)
Definition holds (t : node) (done : list loc) : Prop :=
  rooted t ∧
  leaves t ≡ₚ (λ r, (path_of r, [r])) <$> done ∧
  ∀ r, r ∈ done → lookup_path (path_of r) t = Some (Leaf [r]).

Lemma holds_empty : holds (Mapping []) [].
Proof.
  split_and!; [exists []; by split | done |].
  intros r Hr. by apply elem_of_nil in Hr.
Qed.

Lemma holds_step t done r :
  holds t done → path_of r ≠ [] →
  (∀ r', r' ∈ done →
     ¬ path_of r' `prefix_of` path_of r ∧ ¬ path_of r `prefix_of` path_of r') →
  add_value_to_nested_dict r (path_of r) t
    = (Returned tt, inserted r (path_of r) t) ∧
  holds (inserted r (path_of r) t) (done ++ [r]).
Proof.
  intros (Hrooted & Hleaves & Hlookup) Hne Hapart.
  assert (∀ p entries, lookup_path p t = Some (Leaf entries) →
            ∃ r', r' ∈ done ∧ p = path_of r') as Hcovered.
  { intros p entries Hp. apply lookup_path_leaves in Hp.
    rewrite Hleaves in Hp. apply list_elem_of_fmap in Hp as (r' & [= -> _] & Hr').
    eauto. }
  assert (∀ p entries, p `prefix_of` path_of r →
            lookup_path p t ≠ Some (Leaf entries)) as Hlists.
  { intros p entries Hpre Hp.
    destruct (Hcovered p entries Hp) as (r' & Hr' & ->).
    by destruct (Hapart r' Hr'). }
  assert (∀ items, lookup_path (path_of r) t ≠ Some (Mapping items)) as Hmapping.
  { intros items Hitems.
    destruct (rooted_mapping_has_leaf _ _ _ Hrooted Hne Hitems)
      as (p & entries & (key & rest & Hpre) & Hp).
    destruct (Hcovered p entries Hp) as (r' & Hr' & ->).
    destruct (Hapart r' Hr') as [_ []]. rewrite Hpre. by eexists. }
  assert (admits (path_of r) t) as Hadm.
  { apply conflict_free_admits; [done| |done].
    intros p entries (key & rest & Hpre). apply Hlists.
    rewrite Hpre. by eexists. }
  assert (lookup_path (path_of r) t = None) as Hnone.
  { destruct (lookup_path (path_of r) t) as [[items|entries]|] eqn:Hhere;
      [by destruct (Hmapping items) | | done].
    by destruct (Hlists (path_of r) entries). }
  split; [by apply add_value_to_nested_dict_run|].
  split_and!.
  - by apply inserted_rooted.
  - rewrite leaves_inserted, Hleaves, fmap_app by done. done.
  - intros r' [Hr'| ->%list_elem_of_singleton]%elem_of_app.
    + rewrite inserted_frame; [by apply Hlookup | done |].
      by destruct (Hapart r' Hr').
    + rewrite inserted_lookup, Hnone by done. done.
Qed.

Lemma add_reactions_holds rxns :
  ∀ done t,
    holds t done →
    (∀ r, r ∈ rxns → path_of r ≠ []) →
    (∀ (i j : nat) ri rj,
       (done ++ rxns) !! i = Some ri → (done ++ rxns) !! j = Some rj → i ≠ j →
       ¬ path_of ri `prefix_of` path_of rj) →
    ∃ t', add_reactions objects rxns t = (Returned tt, t') ∧
          holds t' (done ++ rxns).
Proof.
  induction rxns as [|r rxns IH]; intros done t Hholds Hne Hapart.
  - exists t. by rewrite app_nil_r.
  - destruct (holds_step t done r) as [Hrun Hholds']; [done|apply Hne; left|..].
    { intros r' Hr'. apply list_elem_of_lookup in Hr' as [i Hi].
      assert (i < length done)%nat as Hlt by by eapply lookup_lt_Some.
      assert ((done ++ r :: rxns) !! i = Some r') as Hi'
        by by rewrite lookup_app_l.
      assert ((done ++ r :: rxns) !! length done = Some r) as Hr
        by by rewrite lookup_app_r, Nat.sub_diag.
      split; [apply (Hapart i (length done)) | apply (Hapart (length done) i)];
        try done; lia. }
    destruct (IH (done ++ [r]) (inserted r (path_of r) t)) as (t' & Hrest & Hfinal).
    + done.
    + intros r' Hr'. apply Hne. by right.
    + rewrite <- app_assoc. exact Hapart.
    + exists t'. rewrite <- app_assoc in Hfinal. split; [|done].
      unfold add_reactions in *. cbn [for_each].
      erewrite bind_returned; [exact Hrest|].
      unfold add_reaction_to_dictionary. exact Hrun.
Qed.
End AddReactions.

(** A reaction that has been given no classification. *)
Definition unclassified : heap := λ _, mkReaction 1 ["A"] ["B"] 0 [] "".

(** C4, as stated, fails: a single reaction whose classification is the
    empty sequence is a collection of one reaction whose paths are
    pairwise distinct, none a prefix of another; inserting it raises
    [IndexError] and the tree holds no entry. *)
Lemma add_reactions_unclassified :
  classification_list (unclassified 0%nat) = [] ∧
  add_reactions unclassified [0%nat] (Mapping [])
    = (Raised list_index_out_of_range, Mapping []) ∧
  total_entries (Mapping []) = 0%nat.
Proof. by split_and!. Qed.

(** C4, amended.  From the empty dictionary, inserting reactions whose
    classifications are non-empty and of which none is a prefix of (or
    equal to) that of another returns a tree whose leaf lists hold as many
    entries as there are reactions: the leaf lists are the one-element
    lists of the reactions, each at the end of its reaction's
    classification, so that a reaction occurs in no other list. *)
Theorem add_reactions_one_leaf_each (objects : heap) (rxns : list loc) :
  (∀ r, r ∈ rxns → classification_list (objects r) ≠ []) →
  (∀ (i j : nat) ri rj,
     rxns !! i = Some ri → rxns !! j = Some rj → i ≠ j →
     ¬ classification_list (objects ri) `prefix_of` classification_list (objects rj)) →
  ∃ t,
    add_reactions objects rxns (Mapping []) = (Returned tt, t) ∧
    total_entries t = length rxns ∧
    leaves t ≡ₚ (λ r, (classification_list (objects r), [r])) <$> rxns ∧
    (∀ r, r ∈ rxns →
       lookup_path (classification_list (objects r)) t = Some (Leaf [r])) ∧
    (∀ r p entries,
       r ∈ rxns → (p, entries) ∈ leaves t → r ∈ entries →
       p = classification_list (objects r) ∧ entries = [r]).
Proof.
  intros Hne Hapart.
  destruct (add_reactions_holds objects rxns [] (Mapping []))
    as (t & Hrun & Hrooted & Hleaves & Hlookup);
    [apply holds_empty | done | done |]. simpl in *.
  exists t. split_and!; try done.
  - unfold total_entries. rewrite Hleaves.
    clear. induction rxns as [|r rxns IH]; simpl; [done | by f_equal].
  - intros r p entries Hr Hin Hentries.
    rewrite Hleaves in Hin.
    apply list_elem_of_fmap in Hin as (r' & [= -> ->] & Hr').
    by apply list_elem_of_singleton in Hentries as ->.
Qed.

(** Three reactions classified along three branches. *)
Definition classified : heap :=
  λ l, match l with
       | 0%nat => mkReaction 1 [] [] 0 ["ionization"; "positive_ionization"] ""
       | 1%nat => mkReaction 2 [] [] 0 ["chemical"; "unimolecular"; "fragmentation"] ""
       | _ => mkReaction 3 [] [] 0 ["chemical"; "unimolecular"; "isomerization"] ""
       end.

Lemma add_reactions_one_leaf_each_witness :
  ∃ t,
    add_reactions classified [0; 1; 2]%nat (Mapping []) = (Returned tt, t) ∧
    total_entries t = 3%nat ∧
    lookup_path ["chemical"; "unimolecular"; "isomerization"] t = Some (Leaf [2%nat]).
Proof.
  destruct (add_reactions_one_leaf_each classified [0; 1; 2]%nat)
    as (t & Hrun & Htotal & _ & Hlookup & _).
  - intros r Hr. by destruct r as [|[|r]].
  - intros i j ri rj Hi Hj Hij [k Hk].
    destruct i as [|[|[|i]]]; destruct j as [|[|[|j]]];
      simplify_eq/=; done.
  - exists t. split; [exact Hrun|]. split; [exact Htotal|].
    apply (Hlookup 2%nat). by do 2 right; left.
Defined.

End NestedDictFacts.


(** ** More on the top-reaction tables *)
Module TopReactionMore.
Import TopReaction TopReactionFacts.

Lemma first_maximal_elem_of role m values S l :
  first_maximal role m values S l →
  l ∈ values ∧ S ∈ role (objects m l) ∧
  ∀ l', l' ∈ values → S ∈ role (objects m l') → freq m l' ≤ freq m l.
Proof.
  intros (i & Hi & HS & Hmax). split_and!; [|done|].
  - apply list_elem_of_lookup. eauto.
  - intros l' [j Hj]%list_elem_of_lookup HS'. by apply (Hmax j l').
Qed.

(** X1. [build_top_reaction_dict_for_reactants] returns, for every memory
    and table, a mapping whose keys are the species that some reaction of
    the table consumes (none for an empty table); the reaction stored for a
    species is, among the reactions that list it among their reactants, one
    of greatest [selection_freq] and the first of those in the table's
    iteration order. *)
Theorem build_top_reaction_dict_for_reactants_first_maximum
    (m : memory) (index_reaction_dict : loc) :
  ∃ top : gmap string loc,
    build_top_reaction_dict_for_reactants index_reaction_dict m = (Returned top, m) ∧
    (dicts m index_reaction_dict = [] → top = ∅) ∧
    (∀ S, is_Some (top !! S) ↔
          ∃ l, l ∈ (dicts m index_reaction_dict).*2 ∧ S ∈ reactants (objects m l)) ∧
    (∀ S l, top !! S = Some l →
       ∃ i : nat,
         (dicts m index_reaction_dict).*2 !! i = Some l ∧
         S ∈ reactants (objects m l) ∧
         ∀ (j : nat) l',
           (dicts m index_reaction_dict).*2 !! j = Some l' →
           S ∈ reactants (objects m l') →
           selection_freq (objects m l') ≤ selection_freq (objects m l) ∧
           (selection_freq (objects m l') = selection_freq (objects m l) →
            (i ≤ j)%nat)).
Proof.
  exists (top_table reactants m (dicts m index_reaction_dict).*2).
  split; [apply build_top_reaction_dict_for_reactants_run|]. split_and!.
  - by intros ->.
  - intros S.
    pose proof (top_table_spec reactants m (dicts m index_reaction_dict).*2 S) as H.
    destruct (top_table reactants m _ !! S) as [l|]; split.
    + intros _. apply first_maximal_elem_of in H as (Hl & HS & _). eauto.
    + intros _. by eexists.
    + by intros [? ?].
    + intros (l & Hl & HS). by destruct (H l Hl).
  - intros S l Hl.
    pose proof (top_table_spec reactants m (dicts m index_reaction_dict).*2 S) as H.
    by rewrite Hl in H.
Qed.

Lemma build_top_reaction_dict_for_reactants_first_maximum_witness :
  ∃ top : gmap string loc,
    build_top_reaction_dict_for_reactants 0%nat sample_memory
      = (Returned top, sample_memory) ∧
    top !! "B" = Some 0%nat ∧ top !! "D" = Some 2%nat ∧ top !! "A" = None.
Proof.
  destruct (build_top_reaction_dict_for_reactants_first_maximum sample_memory 0%nat)
    as (top & Hrun & _).
  exists top. split; [exact Hrun|].
  rewrite build_top_reaction_dict_for_reactants_run in Hrun.
  injection Hrun as <-. by vm_compute.
Defined.

(** The table does not depend on the order of the reactions when no two of
    them that share a species of the role have the same frequency. *)
Lemma top_table_Permutation role m values values' :
  values ≡ₚ values' →
  (∀ l l' S, l ∈ values → l' ∈ values →
     S ∈ role (objects m l) → S ∈ role (objects m l') →
     freq m l = freq m l' → l = l') →
  top_table role m values = top_table role m values'.
Proof.
  intros Hperm Hties. apply map_eq. intros S.
  pose proof (top_table_spec role m values S) as H.
  pose proof (top_table_spec role m values' S) as H'.
  destruct (top_table role m values !! S) as [l|] eqn:E;
    destruct (top_table role m values' !! S) as [l'|] eqn:E'; [| | |done].
  - apply first_maximal_elem_of in H as (Hl & HS & Hmax).
    apply first_maximal_elem_of in H' as (Hl' & HS' & Hmax').
    rewrite <- Hperm in Hl'. f_equal. apply (Hties l l' S); try done.
    assert (freq m l' ≤ freq m l) by by apply Hmax.
    assert (freq m l ≤ freq m l') by (apply Hmax'; [by rewrite <- Hperm | done]).
    lia.
  - apply first_maximal_elem_of in H as (Hl & HS & _).
    destruct (H' l); [by rewrite <- Hperm | done].
  - apply first_maximal_elem_of in H' as (Hl' & HS' & _).
    destruct (H l'); [by rewrite Hperm | done].
Qed.

(** X2. When no two different reactions of a table that form the same
    species have the same [selection_freq], [build_top_reaction_dict]
    returns the same mapping for every table that lists the same reactions
    in another order. *)
Theorem build_top_reaction_dict_order_free (m : memory) (d d' : loc) :
  (dicts m d).*2 ≡ₚ (dicts m d').*2 →
  (∀ l l' S, l ∈ (dicts m d).*2 → l' ∈ (dicts m d).*2 →
     S ∈ products (objects m l) → S ∈ products (objects m l') →
     selection_freq (objects m l) = selection_freq (objects m l') → l = l') →
  ∃ top,
    build_top_reaction_dict d m = (Returned top, m) ∧
    build_top_reaction_dict d' m = (Returned top, m).
Proof.
  intros Hperm Hties. eexists. split; [apply build_top_reaction_dict_run|].
  rewrite build_top_reaction_dict_run. do 2 f_equal.
  symmetry. by apply top_table_Permutation.
Qed.

(** Two reactions that form A with different frequencies, listed in the
    two orders. *)
Definition two_orders : memory :=
  {| objects := λ l,
       match l with
       | 0%nat => mkReaction 1 ["B"] ["A"] 10 [] ""
       | _ => mkReaction 2 ["C"] ["A"; "D"] 20 [] ""
       end;
     dicts := λ d,
       match d with
       | 0%nat => [(1, 0%nat); (2, 1%nat)]
       | _ => [(2, 1%nat); (1, 0%nat)]
       end |}.

Lemma build_top_reaction_dict_order_free_witness :
  ∃ top,
    build_top_reaction_dict 0%nat two_orders = (Returned top, two_orders) ∧
    build_top_reaction_dict 1%nat two_orders = (Returned top, two_orders).
Proof.
  apply (build_top_reaction_dict_order_free two_orders 0%nat 1%nat).
  - apply Permutation_swap.
  - intros l l' S Hl Hl' _ _ Hfreq.
    apply list_elem_of_In in Hl, Hl'. simpl in Hl, Hl'.
    destruct Hl as [<-|[<-|[]]]; destruct Hl' as [<-|[<-|[]]]; done.
Defined.

Lemma top_table_from_grows role m extra :
  ∀ (top : gmap string loc) S l,
    top !! S = Some l →
    ∃ l',
      foldl (λ top reaction,
               foldl (attempt m reaction) top (role (objects m reaction)))
        top extra !! S = Some l' ∧
      freq m l ≤ freq m l' ∧
      (l' = l ∨ (l' ∈ extra ∧ freq m l < freq m l')).
Proof.
  induction extra as [|r extra IH]; intros top S l Hl; simpl.
  - exists l. split_and!; [done | lia | by left].
  - pose proof (role_loop_lookup m r (role (objects m r)) top S) as Hstep.
    rewrite Hl in Hstep. unfold settle in Hstep.
    destruct (decide (S ∈ role (objects m r)));
      [destruct (Z.ltb_spec (freq m l) (freq m r))|].
    + destruct (IH _ S r Hstep) as (l' & Hl' & Hle & Hwhich).
      exists l'. split_and!; [done | lia |]. right.
      destruct Hwhich as [->|[Hin Hlt]]; (split; [|lia]);
        [left | by right].
    + destruct (IH _ S l Hstep) as (l' & Hl' & Hle & Hwhich).
      exists l'. split_and!; [done..|].
      destruct Hwhich as [->|[Hin Hlt]]; [by left|].
      right. split; [by right | done].
    + destruct (IH _ S l Hstep) as (l' & Hl' & Hle & Hwhich).
      exists l'. split_and!; [done..|].
      destruct Hwhich as [->|[Hin Hlt]]; [by left|].
      right. split; [by right | done].
Qed.

(** X3. When reactions are added at the end of a table, every species that
    had an entry keeps one; the entry is the old reaction, or one of the
    added reactions with a strictly greater [selection_freq]. *)
Theorem build_top_reaction_dict_grows (m : memory) (d d' : loc) extra :
  dicts m d' = dicts m d ++ extra →
  ∃ top top',
    build_top_reaction_dict d m = (Returned top, m) ∧
    build_top_reaction_dict d' m = (Returned top', m) ∧
    ∀ S l, top !! S = Some l →
      ∃ l',
        top' !! S = Some l' ∧
        selection_freq (objects m l) ≤ selection_freq (objects m l') ∧
        (l' = l ∨
         (l' ∈ extra.*2 ∧
          selection_freq (objects m l) < selection_freq (objects m l'))).
Proof.
  intros Hd'. do 2 eexists.
  split; [apply build_top_reaction_dict_run|].
  split; [apply build_top_reaction_dict_run|].
  intros S l Hl. rewrite Hd', fmap_app. unfold top_table at 1.
  rewrite foldl_app. by apply top_table_from_grows.
Qed.

(** The sample table, and the table of its first two reactions. *)
Definition sample_memory_grown : memory :=
  {| objects := objects sample_memory;
     dicts := λ d,
       match d with
       | 0%nat => [(1, 0%nat); (2, 1%nat)]
       | _ => [(1, 0%nat); (2, 1%nat); (3, 2%nat)]
       end |}.

Lemma build_top_reaction_dict_grows_witness :
  ∃ top top',
    build_top_reaction_dict 0%nat sample_memory_grown
      = (Returned top, sample_memory_grown) ∧
    build_top_reaction_dict 1%nat sample_memory_grown
      = (Returned top', sample_memory_grown) ∧
    top !! "A" = Some 0%nat ∧ top' !! "A" = Some 0%nat ∧ top' !! "C" = Some 2%nat.
Proof.
  destruct (build_top_reaction_dict_grows sample_memory_grown 0%nat 1%nat
              [(3, 2%nat)] eq_refl) as (top & top' & Hrun & Hrun' & _).
  exists top, top'. split; [exact Hrun|]. split; [exact Hrun'|].
  rewrite build_top_reaction_dict_run in Hrun, Hrun'.
  injection Hrun as <-. injection Hrun' as <-. by vm_compute.
Defined.

(** *** The two finders *)
Section FinderFacts.
Context {index_freq : Type}
        (build_index_freq_dict : string → Z → Z → M memory index_freq)
        (build_index_reaction_dict : string → index_freq → M memory loc).

(** X4. [find_top_formation_reactions] and [find_top_reactant_reactions]
    hand an exception of either parser to their caller, with the memory as
    the parser left it; when both parsers return, the finders return, leave
    the memory as the second parser left it, and give the mappings that
    [build_top_reaction_dict] and [build_top_reaction_dict_for_reactants]
    return on the dictionary the second parser produced, in which every
    entry is a reaction of that dictionary that lists the species and has
    the greatest [selection_freq] among those that do. *)
Theorem find_top_reactions_compose
    select_freq_file reaction_name_file start_index end_index (m : memory) :
  let formation :=
    find_top_formation_reactions build_index_freq_dict build_index_reaction_dict
      select_freq_file reaction_name_file start_index end_index in
  let reactant :=
    find_top_reactant_reactions build_index_freq_dict build_index_reaction_dict
      select_freq_file reaction_name_file start_index end_index in
  (∀ e m1,
     build_index_freq_dict select_freq_file start_index end_index m = (Raised e, m1) →
     formation m = (Raised e, m1) ∧ reactant m = (Raised e, m1)) ∧
  (∀ index_freq_dict m1 e m2,
     build_index_freq_dict select_freq_file start_index end_index m
       = (Returned index_freq_dict, m1) →
     build_index_reaction_dict reaction_name_file index_freq_dict m1 = (Raised e, m2) →
     formation m = (Raised e, m2) ∧ reactant m = (Raised e, m2)) ∧
  (∀ index_freq_dict m1 d m2,
     build_index_freq_dict select_freq_file start_index end_index m
       = (Returned index_freq_dict, m1) →
     build_index_reaction_dict reaction_name_file index_freq_dict m1
       = (Returned d, m2) →
     ∃ top_formation top_reactant,
       formation m = (Returned top_formation, m2) ∧
       reactant m = (Returned top_reactant, m2) ∧
       build_top_reaction_dict d m2 = (Returned top_formation, m2) ∧
       build_top_reaction_dict_for_reactants d m2 = (Returned top_reactant, m2) ∧
       (∀ S l, top_formation !! S = Some l →
          l ∈ (dicts m2 d).*2 ∧ S ∈ products (objects m2 l) ∧
          ∀ l', l' ∈ (dicts m2 d).*2 → S ∈ products (objects m2 l') →
            selection_freq (objects m2 l') ≤ selection_freq (objects m2 l)) ∧
       (∀ S l, top_reactant !! S = Some l →
          l ∈ (dicts m2 d).*2 ∧ S ∈ reactants (objects m2 l) ∧
          ∀ l', l' ∈ (dicts m2 d).*2 → S ∈ reactants (objects m2 l') →
            selection_freq (objects m2 l') ≤ selection_freq (objects m2 l))).
Proof.
  cbv zeta. unfold find_top_formation_reactions, find_top_reactant_reactions.
  split_and!.
  - intros e m1 Hfreq. split; by erewrite bind_raised by exact Hfreq.
  - intros f m1 e m2 Hfreq Hrxn.
    split; (erewrite bind_returned by exact Hfreq);
      by erewrite bind_raised by exact Hrxn.
  - intros f m1 d m2 Hfreq Hrxn.
    exists (top_table products m2 (dicts m2 d).*2),
           (top_table reactants m2 (dicts m2 d).*2).
    split_and!.
    + erewrite bind_returned by exact Hfreq.
      erewrite bind_returned by exact Hrxn.
      by erewrite bind_returned by apply build_top_reaction_dict_run.
    + erewrite bind_returned by exact Hfreq.
      erewrite bind_returned by exact Hrxn.
      by erewrite bind_returned by apply build_top_reaction_dict_for_reactants_run.
    + apply build_top_reaction_dict_run.
    + apply build_top_reaction_dict_for_reactants_run.
    + intros S l Hl.
      pose proof (top_table_spec products m2 (dicts m2 d).*2 S) as H.
      rewrite Hl in H. by apply first_maximal_elem_of.
    + intros S l Hl.
      pose proof (top_table_spec reactants m2 (dicts m2 d).*2 S) as H.
      rewrite Hl in H. by apply first_maximal_elem_of.
Qed.
End FinderFacts.

(** Parsers that find the sample table. *)
Lemma find_top_reactions_compose_witness :
  ∃ top_formation top_reactant,
    find_top_formation_reactions (λ _ _ _, ret tt) (λ _ _, ret 0%nat)
      "excitation_selection_freq_092524.txt" "excitation_reactions_092524.txt"
      7 5384 sample_memory = (Returned top_formation, sample_memory) ∧
    find_top_reactant_reactions (λ _ _ _, ret tt) (λ _ _, ret 0%nat)
      "excitation_selection_freq_092524.txt" "excitation_reactions_092524.txt"
      7 5384 sample_memory = (Returned top_reactant, sample_memory) ∧
    top_formation !! "A" = Some 0%nat ∧ top_reactant !! "B" = Some 0%nat.
Proof.
  pose proof (find_top_reactions_compose (λ _ _ _, ret tt) (λ _ _, ret 0%nat)
                "excitation_selection_freq_092524.txt"
                "excitation_reactions_092524.txt" 7 5384 sample_memory) as H.
  cbv zeta in H. destruct H as (_ & _ & H).
  destruct (H tt sample_memory 0%nat sample_memory eq_refl eq_refl)
    as (tf & tr & Hf & Hr & Hbf & Hbr & _).
  exists tf, tr. split; [exact Hf|]. split; [exact Hr|].
  rewrite build_top_reaction_dict_run in Hbf.
  rewrite build_top_reaction_dict_for_reactants_run in Hbr.
  injection Hbf as <-. injection Hbr as <-. by vm_compute.
Defined.

End TopReactionMore.

(** ** More on pathway ranking, the phase-2 batch and the narrowing pass *)
Module HiPRGenMore.
Import HiPRGen HiPRGenFacts.

(** *** Sorting *)

Lemma sorted_fixes_sorted (l : list pathway_dict) :
  StronglySorted key_le l → sorted pathway_key tuple_lt l = l.
Proof.
  induction 1 as [|x l Hsorted IH Hx]; simpl; [done|].
  rewrite IH. destruct l as [|y l]; simpl; [done|].
  apply Forall_cons_1 in Hx as [Hxy _].
  destruct (tuple_lt (pathway_key y) (pathway_key x)) eqn:Hlt; [|done].
  by apply tuple_lt_spec in Hlt.
Qed.

(** X5. Sorting a list of pathways that [sort_pathways_list] has sorted,
    or any list that is ascending by [(weight, frequency)], gives the list
    back. *)
Theorem sort_pathways_list_idempotent :
  (∀ pathways_list,
     sort_pathways_list (sort_pathways_list pathways_list)
     = sort_pathways_list pathways_list) ∧
  (∀ pathways_list,
     StronglySorted
       (λ x y, weight x < weight y ∨
               (weight x = weight y ∧ frequency x ≤ frequency y))
       pathways_list →
     sort_pathways_list pathways_list = pathways_list).
Proof.
  split.
  - intros l. apply sorted_fixes_sorted, sorted_sorted.
  - intros l Hl. by apply sorted_fixes_sorted.
Qed.

Lemma sort_pathways_list_idempotent_witness :
  sort_pathways_list [PathwayDict 1 3 [7]; PathwayDict 1 9 [8]; PathwayDict 2 5 [9]]
  = [PathwayDict 1 3 [7]; PathwayDict 1 9 [8]; PathwayDict 2 5 [9]].
Proof.
  apply (proj2 sort_pathways_list_idempotent).
  repeat (constructor; [|repeat constructor; simpl; lia]). constructor.
Defined.

(** X6. The pathways that the script saves for a product are those of the
    first ten records of the sorted list; together with the records left
    out these are the records it was given, and no record left out stands
    before a saved one in the order by [(weight, frequency)]. *)
Theorem saved_pathways_are_least (all_pathways_list : list pathway_dict) :
  let sorted_pathways_list := sort_pathways_list all_pathways_list in
  save_pathways sorted_pathways_list []
    = pathway <$> take 10 sorted_pathways_list ∧
  all_pathways_list ≡ₚ take 10 sorted_pathways_list ++ drop 10 sorted_pathways_list ∧
  ∀ x y,
    x ∈ take 10 sorted_pathways_list → y ∈ drop 10 sorted_pathways_list →
    weight x < weight y ∨ (weight x = weight y ∧ frequency x ≤ frequency y).
Proof.
  cbv zeta. split_and!.
  - by rewrite save_pathways_spec by (simpl; lia).
  - rewrite take_drop. symmetry. apply sorted_perm.
  - intros x y Hx Hy.
    pose proof (sorted_sorted all_pathways_list) as Hsorted.
    unfold sort_pathways_list in Hx, Hy.
    rewrite <- (take_drop 10 (sorted pathway_key tuple_lt all_pathways_list))
      in Hsorted.
    by apply (StronglySorted_app_1_elem_of _ _ _ _ _ Hsorted).
Qed.

(** X7. [sort_pathways_list] is stable: the records of one and the same
    weight and frequency come out in the order in which they went in. *)
Theorem sort_pathways_list_stable (w f : Z) (pathways_list : list pathway_dict) :
  filter (λ x, weight x = w ∧ frequency x = f) (sort_pathways_list pathways_list)
  = filter (λ x, weight x = w ∧ frequency x = f) pathways_list.
Proof.
  pose proof (sorted_stable (w, f) pathways_list) as Hstable.
  unfold sort_pathways_list.
  erewrite (list_filter_iff _ (λ x, pathway_key x = (w, f))).
  - rewrite Hstable. apply list_filter_iff. intros x. simpl.
    split; [by intros [= -> ->] | by intros [-> ->]].
  - intros x. simpl. split; [by intros [-> ->] | by intros [= -> ->]].
Qed.

(** *** Which phase-2 reactions are processed *)

Lemma bind_same_run {S A B} (c c' : M S A) (k : A → M S B) s :
  c s = c' s → bind c k s = bind c' k s.
Proof. unfold bind. by intros ->. Qed.

(** The number a tally entry stands for in a comparison with an integer. *)
Definition tally (x : json) : option Z :=
  match x with
  | JNum k => Some k
  | JBool b => Some (if b then 1 else 0)
  | _ => None
  end.

(** The reaction has fired at least [frequency_threshold] times; a reaction
    without a tally has fired zero times. *)
Definition fired (index_frequency_items : list (string * json))
    (frequency_threshold : Z) (index_and_rxn : string * json) : bool :=
  match tally (default (JNum 0)
                 (json_lookup index_and_rxn.1 index_frequency_items)) with
  | Some k => frequency_threshold <=? k
  | None => false
  end.

Section Phase2More.
Context {outside : Type}.
Context (os_chdir : string → M (@world outside) unit)
        (loadfn : string → M (@world outside) json)
        (HiPRGen_Reaction : json → Z → M (@world outside) loc)
        (determine_chemical_reaction_tag : loc → M (@world outside) string)
        (add_reaction_if_new :
           loc → string → list loc → gset string →
           M (@world outside) (list loc * gset string)).

Abbreviation body :=
  (add_high_frequency_P2_reactions_body os_chdir loadfn HiPRGen_Reaction
     determine_chemical_reaction_tag add_reaction_if_new).
Abbreviation call :=
  (add_high_frequency_P2_reactions os_chdir loadfn HiPRGen_Reaction
     determine_chemical_reaction_tag add_reaction_if_new).
Abbreviation process :=
  (process_P2_reaction HiPRGen_Reaction determine_chemical_reaction_tag
     add_reaction_if_new).

Lemma threshold_loop_filter index_frequency_items frequency_threshold rxn_items :
  (∀ ir, ir ∈ rxn_items →
     is_Some (tally (default (JNum 0) (json_lookup ir.1 index_frequency_items)))) →
  ∀ acc w,
    for_each (λ '(rxns_for_simulation, rxns_already_added) '(rxn_index, rxn_dict),
        let! rxn_frequency :=
          get (JDict index_frequency_items) rxn_index (JNum 0) in
        let! above := ge_int rxn_frequency frequency_threshold in
        if above : bool then
          process rxn_dict rxns_for_simulation rxns_already_added
        else ret (rxns_for_simulation, rxns_already_added))
      acc rxn_items w
    = for_each (λ acc ir, process ir.2 acc.1 acc.2) acc
        (filter (λ ir, fired index_frequency_items frequency_threshold ir = true)
           rxn_items) w.
Proof.
  induction rxn_items as [|[i r] rxn_items IH]; intros Htally [l a] w; [done|].
  destruct (Htally (i, r)) as [k Hk]; [left|]. cbn [fst] in Hk.
  assert (fired index_frequency_items frequency_threshold (i, r)
          = (frequency_threshold <=? k)) as Hfired.
  { unfold fired. cbn [fst]. by rewrite Hk. }
  assert (∀ ir, ir ∈ rxn_items →
            is_Some (tally (default (JNum 0)
                              (json_lookup ir.1 index_frequency_items)))) as Hrest.
  { intros ir Hir. apply Htally. by right. }
  pose proof (IH Hrest) as IH'.
  assert (ge_int (S := @world outside)
            (default (JNum 0) (json_lookup i index_frequency_items))
            frequency_threshold w
          = (Returned (frequency_threshold <=? k), w)) as Hge.
  { destruct (default (JNum 0) (json_lookup i index_frequency_items));
      simpl in Hk; try done; by injection Hk as <-. }
  rewrite filter_cons. cbn [for_each].
  unfold bind at 1. unfold bind at 1. unfold bind at 1. unfold get, ret.
  rewrite Hge.
  destruct (decide (fired index_frequency_items frequency_threshold (i, r) = true))
    as [Hyes|Hno]; rewrite Hfired in *.
  - rewrite Hyes. cbn [for_each]. unfold bind at 3. cbn [fst snd].
    destruct (process r l a w) as [[acc'|e] w']; [apply IH' | done].
  - apply not_true_is_false in Hno. rewrite Hno. apply IH'.
Qed.

(** X8. When the directory can be entered, the tally file holds a
    dictionary whose [pathways] and [reactions] entries are dictionaries
    (or are missing) and every tally is a number, the body of
    [add_high_frequency_P2_reactions] runs [process_P2_reaction] on the
    reactions whose tally is at least the threshold, in the order of the
    file, and on no other; a reaction without a tally counts as never
    fired. *)
Theorem add_high_frequency_P2_reactions_selects
    directory rxns_for_simulation rxns_already_added frequency_threshold
    (w w1 w2 : @world outside) data index_frequency_items rxn_items :
  os_chdir directory w = (Returned tt, w1) →
  loadfn "reaction_tally.json" w1 = (Returned (JDict data), w2) →
  default (JDict []) (json_lookup "pathways" data) = JDict index_frequency_items →
  default (JDict []) (json_lookup "reactions" data) = JDict rxn_items →
  (∀ ir, ir ∈ rxn_items →
     is_Some (tally (default (JNum 0) (json_lookup ir.1 index_frequency_items)))) →
  body directory rxns_for_simulation rxns_already_added frequency_threshold w
  = (let! _ :=
       for_each (λ acc ir, process ir.2 acc.1 acc.2)
         (rxns_for_simulation, rxns_already_added)
         (filter (λ ir, fired index_frequency_items frequency_threshold ir = true)
            rxn_items) in
     ret tt) w2.
Proof.
  intros Hchdir Hload Hfreqs Hrxns Htally.
  unfold add_high_frequency_P2_reactions_body.
  erewrite bind_returned by exact Hchdir.
  erewrite bind_returned by exact Hload.
  unfold get at 1 2. rewrite Hfreqs, Hrxns.
  erewrite bind_returned by reflexivity.
  erewrite bind_returned by reflexivity.
  erewrite bind_returned by reflexivity.
  apply bind_same_run. by apply threshold_loop_filter.
Qed.

(** X9. When the tally file holds anything but a dictionary, nothing is
    processed: [add_high_frequency_P2_reactions] prints that the object has
    no attribute [get] and returns. *)
Theorem add_high_frequency_P2_reactions_not_a_dict
    directory rxns_for_simulation rxns_already_added frequency_threshold
    (w w1 w2 : @world outside) data :
  (∀ items, data ≠ JDict items) →
  os_chdir directory w = (Returned tt, w1) →
  loadfn "reaction_tally.json" w1 = (Returned data, w2) →
  call directory rxns_for_simulation rxns_already_added frequency_threshold w
  = (Returned tt,
     printed ("An unexpected error occurred: '" +:+ type_name data
              +:+ "' object has no attribute 'get'") w2).
Proof.
  intros Hdata Hchdir Hload.
  unfold add_high_frequency_P2_reactions, try_except,
    add_high_frequency_P2_reactions_body.
  erewrite bind_returned by exact Hchdir.
  erewrite bind_returned by exact Hload.
  destruct data as [| | | | |its]; try done. by destruct (Hdata its).
Qed.
End Phase2More.

(** A tally in which reaction 7 fired 600 times, reaction 8 twice and
    reaction 9 has no entry; processing a reaction adds its index. *)
Definition sample_tally : json :=
  JDict [("pathways", JDict [("7", JNum 600); ("8", JNum 2)]);
         ("reactions", JDict [("7", JNum 7); ("8", JNum 8); ("9", JNum 9)])].

Lemma add_high_frequency_P2_reactions_selects_witness :
  add_high_frequency_P2_reactions_body (outside := list Z)
    (λ _, ret tt) (λ _, ret sample_tally)
    (λ rxn_dict _, match rxn_dict with
                   | JNum n => let! _ := modify (λ w, World (n :: env w) (stdout w)) in
                               ret 0%nat
                   | _ => ret 0%nat
                   end)
    (λ _, ret "") (λ _ _ l s, ret (l, s))
    "G:/My Drive/CRNs/071924_p2" [] ∅ 500 (World [] [])
  = (Returned tt, World [7] []).
Proof.
  etrans.
  - apply (add_high_frequency_P2_reactions_selects _ _ _ _ _
             "G:/My Drive/CRNs/071924_p2" [] ∅ 500 (World [] []) (World [] [])
             (World [] [])
             [("pathways", JDict [("7", JNum 600); ("8", JNum 2)]);
              ("reactions", JDict [("7", JNum 7); ("8", JNum 8); ("9", JNum 9)])]
             [("7", JNum 600); ("8", JNum 2)]
             [("7", JNum 7); ("8", JNum 8); ("9", JNum 9)]);
      [reflexivity..|].
    intros ir Hir. apply list_elem_of_In in Hir. simpl in Hir.
    destruct Hir as [<-|[<-|[<-|[]]]]; by eexists.
  - reflexivity.
Defined.

Lemma add_high_frequency_P2_reactions_not_a_dict_witness :
  add_high_frequency_P2_reactions (outside := unit)
    (λ _, ret tt) (λ _, ret (JList [])) (λ _ _, ret 0%nat) (λ _, ret "")
    (λ _ _ l s, ret (l, s)) "G:/My Drive/CRNs/071924_p2" [] ∅ 500 (World tt [])
  = (Returned tt,
     World tt ["An unexpected error occurred: 'list' object has no attribute 'get'"]).
Proof.
  by erewrite (add_high_frequency_P2_reactions_not_a_dict _ _ _ _ _
                 "G:/My Drive/CRNs/071924_p2" [] ∅ 500 (World tt []) (World tt [])
                 (World tt []) (JList [])).
Defined.

(** *** The narrowing pass settles *)

Section NarrowingMore.
Variable narrow_down_ionization_type : heap → loc → list loc → string.

Lemma narrow_step_settles population h reaction l :
  (∀ h r rxns,
     narrow_down_ionization_type h r rxns ≠ "attachment_or_recombination") →
  l = reaction ∨ tag (h l) ≠ "attachment_or_recombination" →
  tag (narrow_step narrow_down_ionization_type population h reaction l)
  ≠ "attachment_or_recombination".
Proof.
  intros Hnarrow Hl. unfold narrow_step.
  destruct (String.eqb_spec (tag (h reaction)) "attachment_or_recombination")
    as [Htag|Htag].
  - destruct (decide (reaction = l)) as [->|Hne].
    + rewrite fn_lookup_insert. simpl. apply Hnarrow.
    + rewrite fn_lookup_insert_ne by done. by destruct Hl as [->|].
  - by destruct Hl as [->|].
Qed.

Lemma narrow_loop_settles population todo h l :
  (∀ h r rxns,
     narrow_down_ionization_type h r rxns ≠ "attachment_or_recombination") →
  l ∈ todo ∨ tag (h l) ≠ "attachment_or_recombination" →
  tag (foldl (narrow_step narrow_down_ionization_type population) h todo l)
  ≠ "attachment_or_recombination".
Proof.
  intros Hnarrow. revert h.
  induction todo as [|r todo IH]; intros h Hl; simpl.
  - destruct Hl as [Hl|]; [by apply elem_of_nil in Hl | done].
  - destruct (decide (l ∈ todo)) as [Hin|Hin]; [apply IH; by left|].
    apply IH. right. apply narrow_step_settles; [done|].
    destruct Hl as [[->|]%elem_of_cons|]; auto.
Qed.

(** X10. When [narrow_down_ionization_type] never answers
    ["attachment_or_recombination"], no reaction of the population carries
    that tag after the narrowing pass, and a second pass changes no
    reaction. *)
Theorem narrow_tags_settles (h : heap) (rxns_for_simulation : list loc) :
  (∀ h r rxns,
     narrow_down_ionization_type h r rxns ≠ "attachment_or_recombination") →
  ∃ h' h'' : heap,
    narrow_tags narrow_down_ionization_type rxns_for_simulation h
      = (Returned tt, h') ∧
    (∀ l, l ∈ rxns_for_simulation →
       tag (h' l) ≠ "attachment_or_recombination") ∧
    narrow_tags narrow_down_ionization_type rxns_for_simulation h'
      = (Returned tt, h'') ∧
    ∀ l, h'' l = h' l.
Proof.
  intros Hnarrow.
  set (h' := foldl (narrow_step narrow_down_ionization_type rxns_for_simulation)
               h rxns_for_simulation).
  exists h', (foldl (narrow_step narrow_down_ionization_type rxns_for_simulation)
                h' rxns_for_simulation).
  assert (∀ l, l ∈ rxns_for_simulation →
            tag (h' l) ≠ "attachment_or_recombination") as Hsettled.
  { intros l Hl. apply narrow_loop_settles; [done | by left]. }
  split_and!; [apply narrow_loop_run | done | apply narrow_loop_run |].
  intros l. destruct (decide (l ∈ rxns_for_simulation)).
  - apply narrow_loop_untagged. by apply Hsettled.
  - by apply narrow_loop_other.
Qed.
End NarrowingMore.

Lemma narrow_tags_settles_witness :
  ∃ h' h'' : heap,
    narrow_tags (λ _ _ _, "electron_attachment") [0; 1; 2]%nat sample_heap
      = (Returned tt, h') ∧
    tag (h' 1%nat) ≠ "attachment_or_recombination" ∧
    narrow_tags (λ _ _ _, "electron_attachment") [0; 1; 2]%nat h'
      = (Returned tt, h'') ∧
    h'' 1%nat = h' 1%nat.
Proof.
  destruct (narrow_tags_settles (λ _ _ _, "electron_attachment") sample_heap
              [0; 1; 2]%nat) as (h' & h'' & Hrun & Htags & Hrun' & Hsame); [done|].
  exists h', h''. split_and!; [done | | done | done].
  apply Htags. by right; left.
Defined.

End HiPRGenMore.

(** ** More on the nested classification dictionary *)
Module NestedDictMore.
Import HiPRGen NestedDictFacts.

(** X11. Whenever [add_value_to_nested_dict] raises, for whatever tree,
    value and keys, the tree is left exactly as it was, and the exception
    is the [IndexError] of an empty sequence of keys, the [TypeError] of a
    list met before the last key, or the [AttributeError] of a mapping met
    at the last key; it is never a [KeyError]. *)
Theorem add_value_to_nested_dict_raises_cleanly value keys t e t' :
  add_value_to_nested_dict value keys t = (Raised e, t') →
  t' = t ∧
  ((keys = [] ∧ e = list_index_out_of_range) ∨
   (e = list_indices_must_be_integers ∧
    ∃ p entries, strict_prefix p keys ∧ lookup_path p t = Some (Leaf entries)) ∨
   (keys ≠ [] ∧ e = dict_has_no_append ∧
    ∃ items, lookup_path keys t = Some (Mapping items))).
Proof.
  intros Hrun. destruct keys as [|key rest].
  - injection Hrun as <- <-. split; [done | by left].
  - destruct (admits_or_conflict (key :: rest) t)
      as [Hadm|[(p & entries & Hp & Hleaf)|[items Hitems]]]; [done| | |].
    + by rewrite add_value_to_nested_dict_run in Hrun.
    + rewrite (add_value_to_nested_dict_through_list _ _ _ _ _ Hp Hleaf) in Hrun.
      injection Hrun as <- <-. split; [done|]. right; left. eauto.
    + rewrite (add_value_to_nested_dict_onto_mapping value (key :: rest) t items)
        in Hrun by done.
      injection Hrun as <- <-. split; [done|]. right; right. eauto.
Qed.

Lemma add_value_to_nested_dict_raises_cleanly_witness :
  (Mapping [("chemical", Mapping [("unimolecular", Leaf [0%nat])])] : node)
  = Mapping [("chemical", Mapping [("unimolecular", Leaf [0%nat])])] ∧
  ((["chemical"] = [] ∧ dict_has_no_append = list_index_out_of_range) ∨
   (dict_has_no_append = list_indices_must_be_integers ∧
    ∃ p entries,
      strict_prefix p ["chemical"] ∧
      lookup_path p (Mapping [("chemical", Mapping [("unimolecular", Leaf [0%nat])])])
      = Some (Leaf entries)) ∨
   (["chemical"] ≠ [] ∧ dict_has_no_append = dict_has_no_append ∧
    ∃ items,
      lookup_path ["chemical"]
        (Mapping [("chemical", Mapping [("unimolecular", Leaf [0%nat])])])
      = Some (Mapping items))).
Proof.
  by apply (add_value_to_nested_dict_raises_cleanly 1%nat ["chemical"]
              (Mapping [("chemical", Mapping [("unimolecular", Leaf [0%nat])])])).
Defined.

(** *** Counting entries *)

Definition total_items (items : list (string * node)) : nat :=
  sum_list_with (λ pe : list string * list loc, length pe.2) (leaves_items items).

Lemma total_entries_Mapping items :
  total_entries (Mapping items) = total_items items.
Proof. unfold total_entries, total_items. by rewrite leaves_Mapping. Qed.

Lemma total_below key (l : list (list string * list loc)) :
  sum_list_with (λ pe : list string * list loc, length pe.2) (below key <$> l)
  = sum_list_with (λ pe : list string * list loc, length pe.2) l.
Proof. induction l as [|pe l IH]; simpl; [done | by f_equal]. Qed.

Lemma total_items_cons key child items :
  total_items ((key, child) :: items) = (total_entries child + total_items items)%nat.
Proof.
  unfold total_items, total_entries. simpl.
  by rewrite sum_list_with_app, total_below.
Qed.

Lemma total_items_set key v items :
  (total_items (dict_set key v items)
   + total_entries (default (Mapping []) (dict_get key items)))%nat
  = (total_items items + total_entries v)%nat.
Proof.
  induction items as [|[k w] items IH]; simpl.
  - rewrite total_items_cons. unfold total_items, total_entries. simpl. lia.
  - destruct (String.eqb key k); simpl.
    + rewrite !total_items_cons. lia.
    + rewrite !total_items_cons. lia.
Qed.

Lemma total_entries_fresh rest : total_entries (fresh rest) = 0%nat.
Proof. by destruct rest. Qed.

Lemma total_entries_inserted value keys t :
  admits keys t →
  total_entries (inserted value keys t) = S (total_entries t).
Proof.
  revert t. induction keys as [|key rest IH]; intros t Hadm;
    destruct t as [items|entries]; try done.
  - unfold total_entries. simpl. rewrite length_app. simpl. lia.
  - cbn [inserted]. cbn [admits] in Hadm.
    rewrite !total_entries_Mapping.
    pose proof (total_items_set key
      (inserted value rest (default (fresh rest) (dict_get key items))) items) as Hset.
    rewrite IH in Hset by done.
    destruct (dict_get key items) as [child|]; cbn [default] in Hset |- *.
    + lia.
    + rewrite total_entries_fresh in Hset.
      change (total_entries (Mapping [])) with 0%nat in Hset. lia.
Qed.

(** X12. A call of [add_value_to_nested_dict] that returns adds one entry:
    the leaf lists of the tree hold one entry more than before, whatever
    the tree and the keys. *)
Theorem add_value_to_nested_dict_adds_one value keys t t' :
  add_value_to_nested_dict value keys t = (Returned tt, t') →
  total_entries t' = S (total_entries t).
Proof.
  intros (_ & Hadm & ->)%add_value_to_nested_dict_returns.
  by apply total_entries_inserted.
Qed.

Lemma add_value_to_nested_dict_adds_one_witness :
  total_entries (Mapping [("ionization", Leaf [0%nat; 1%nat])])
  = S (total_entries sample_tree).
Proof.
  by apply (add_value_to_nested_dict_adds_one 1%nat ["ionization"] sample_tree).
Defined.

(** *** The order of the keys *)

Lemma dict_set_keys key v items :
  (dict_set key v items).*1
  = items.*1 ++ (if dict_get key items is Some _ then [] else [key]).
Proof.
  induction items as [|[k w] items IH]; simpl; [done|].
  destruct (String.eqb key k); simpl; [by rewrite app_nil_r | by f_equal].
Qed.

(** X13. A call that returns leaves the keys of every mapping on its way in
    the order they had; a key that was missing is added after them. *)
Theorem add_value_to_nested_dict_keeps_key_order value keys t t' q key rest :
  add_value_to_nested_dict value keys t = (Returned tt, t') →
  keys = q ++ key :: rest →
  ∃ items',
    lookup_path q t' = Some (Mapping items') ∧
    items'.*1
    = (items_at (lookup_path q t)).*1
      ++ (if dict_get key (items_at (lookup_path q t)) is Some _ then [] else [key]).
Proof.
  intros (_ & Hadm & ->)%add_value_to_nested_dict_returns Hkeys.
  destruct (inserted_levels value keys t q key rest Hadm Hkeys) as [child Hq].
  eexists. split; [exact Hq|]. apply dict_set_keys.
Qed.

Lemma add_value_to_nested_dict_keeps_key_order_witness :
  ∃ items',
    lookup_path []
      (Mapping [("ionization", Leaf [0%nat]);
                ("chemical", Mapping [("unimolecular", Leaf [1%nat])])])
    = Some (Mapping items') ∧
    items'.*1 = ["ionization"] ++ ["chemical"].
Proof.
  by apply (add_value_to_nested_dict_keeps_key_order 1%nat
              ["chemical"; "unimolecular"] sample_tree _ [] "chemical"
              ["unimolecular"]).
Defined.

(** *** Reactions that share classifications *)

Section Grouping.
Variable objects : heap.

Abbreviation path_of := (λ r : loc, classification_list (objects r)).

(** The tree that holds the reactions [done], those of one classification
    together, in the order of [done]. *)
Definition grouped (t : node) (done : list loc) : Prop :=
  rooted t ∧
  (∀ p entries, lookup_path p t = Some (Leaf entries) →
     entries ≠ [] ∧ entries = filter (λ r, path_of r = p) done) ∧
  (∀ r, r ∈ done →
     lookup_path (path_of r) t
     = Some (Leaf (filter (λ r', path_of r' = path_of r) done))) ∧
  total_entries t = length done.

Lemma grouped_empty : grouped (Mapping []) [].
Proof.
  split_and!; [exists []; by split | | | done].
  - intros [|key p] entries; [done|]. simpl. done.
  - intros r Hr. by apply elem_of_nil in Hr.
Qed.

Lemma grouped_step t done r :
  grouped t done → path_of r ≠ [] →
  (∀ r', r' ∈ done →
     ¬ strict_prefix (path_of r') (path_of r) ∧
     ¬ strict_prefix (path_of r) (path_of r')) →
  add_value_to_nested_dict r (path_of r) t
    = (Returned tt, inserted r (path_of r) t) ∧
  grouped (inserted r (path_of r) t) (done ++ [r]).
Proof.
  intros (Hrooted & Hleaves & Hlookup & Htotal) Hne Hapart.
  assert (∀ p entries, lookup_path p t = Some (Leaf entries) →
            ∃ r', r' ∈ done ∧ path_of r' = p) as Hcovered.
  { intros p entries Hp. destruct (Hleaves p entries Hp) as [Hnonempty ->].
    destruct (filter _ done) as [|r' l] eqn:Hfilter; [done|].
    assert (r' ∈ filter (λ r0, path_of r0 = p) done) as Hr'
      by (rewrite Hfilter; left).
    apply list_elem_of_filter in Hr' as [? ?]. eauto. }
  assert (admits (path_of r) t) as Hadm.
  { apply conflict_free_admits; [done| |].
    - intros p entries Hpre Hp.
      destruct (Hcovered p entries Hp) as (r' & Hr' & <-).
      by destruct (Hapart r' Hr').
    - intros items Hitems.
      destruct (rooted_mapping_has_leaf _ _ _ Hrooted Hne Hitems)
        as (p & entries & Hpre & Hp).
      destruct (Hcovered p entries Hp) as (r' & Hr' & <-).
      by destruct (Hapart r' Hr'). }
  assert (entries_at (lookup_path (path_of r) t)
          = filter (λ r', path_of r' = path_of r) done) as Hhere.
  { destruct (lookup_path (path_of r) t) as [[items|entries]|] eqn:Hp; simpl.
    - destruct (rooted_mapping_has_leaf _ _ _ Hrooted Hne Hp)
        as (p & entries & Hpre & Hp').
      destruct (Hcovered p entries Hp') as (r' & Hr' & <-).
      by destruct (Hapart r' Hr').
    - by destruct (Hleaves _ _ Hp).
    - destruct (filter _ done) as [|r' l] eqn:Hfilter; [done|].
      assert (r' ∈ filter (λ r0, path_of r0 = path_of r) done) as Hr'
        by (rewrite Hfilter; left).
      apply list_elem_of_filter in Hr' as [Hpath Hr'].
      apply Hlookup in Hr'. rewrite Hpath in Hr'. congruence. }
  split; [by apply add_value_to_nested_dict_run|].
  split_and!.
  - by apply inserted_rooted.
  - intros p entries Hp.
    destruct (decide (p = path_of r)) as [->|Hpr].
    + rewrite inserted_lookup, Hhere in Hp by done. injection Hp as <-.
      split; [by destruct (filter _ done)|].
      by rewrite filter_app, filter_singleton_True.
    + destruct (decide (p `prefix_of` path_of r)) as [[suffix Hpre]|Hpre].
      * destruct suffix as [|key rest]; [by rewrite app_nil_r in Hpre|].
        destruct (inserted_levels r _ t p key rest Hadm Hpre) as [child Hq].
        congruence.
      * rewrite inserted_frame in Hp by done.
        destruct (Hleaves p entries Hp) as [Hnonempty ->]. split; [done|].
        rewrite filter_app, filter_singleton_False by done.
        by rewrite app_nil_r.
  - intros r' Hr'.
    destruct (decide (path_of r' = path_of r)) as [Heq|Hpr].
    + rewrite Heq, inserted_lookup, Hhere by done.
      by rewrite filter_app, filter_singleton_True.
    + apply elem_of_app in Hr' as [Hr'|Hr'%list_elem_of_singleton]; [|by subst].
      rewrite inserted_frame; [|done|].
      * rewrite Hlookup, filter_app, filter_singleton_False by done.
        by rewrite app_nil_r.
      * intros [suffix Hpre].
        destruct suffix as [|key rest]; [by rewrite app_nil_r in Hpre|].
        destruct (Hapart r' Hr') as [[] _]. by exists key, rest.
  - rewrite total_entries_inserted, Htotal, length_app by done. simpl. lia.
Qed.

Lemma add_reactions_grouped rxns :
  ∀ done t,
    grouped t done →
    (∀ r, r ∈ rxns → path_of r ≠ []) →
    (∀ ri rj, ri ∈ done ++ rxns → rj ∈ done ++ rxns →
       ¬ strict_prefix (path_of ri) (path_of rj)) →
    ∃ t', add_reactions objects rxns t = (Returned tt, t') ∧
          grouped t' (done ++ rxns).
Proof.
  induction rxns as [|r rxns IH]; intros done t Hgrouped Hne Hapart.
  - exists t. by rewrite app_nil_r.
  - destruct (grouped_step t done r) as [Hrun Hgrouped'];
      [done | apply Hne; left | |].
    { intros r' Hr'.
      split; apply Hapart; rewrite elem_of_app, elem_of_cons; auto. }
    destruct (IH (done ++ [r]) (inserted r (path_of r) t))
      as (t' & Hrest & Hfinal).
    + done.
    + intros r' Hr'. apply Hne. by right.
    + rewrite <- app_assoc. exact Hapart.
    + exists t'. rewrite <- app_assoc in Hfinal. split; [|done].
      unfold add_reactions in *. cbn [for_each].
      erewrite bind_returned; [exact Hrest|].
      unfold add_reaction_to_dictionary. exact Hrun.
Qed.
End Grouping.

(** X14. From the empty dictionary, inserting reactions whose
    classifications are non-empty and of which none stops before the end of
    another returns a tree that holds as many entries as there are
    reactions; the list at the end of a reaction's classification holds the
    reactions of that classification, in the order in which they were
    inserted, and every list of the tree is such a list. *)
Theorem add_reactions_groups (objects : heap) (rxns : list loc) :
  (∀ r, r ∈ rxns → classification_list (objects r) ≠ []) →
  (∀ ri rj, ri ∈ rxns → rj ∈ rxns →
     ¬ strict_prefix (classification_list (objects ri))
         (classification_list (objects rj))) →
  ∃ t,
    add_reactions objects rxns (Mapping []) = (Returned tt, t) ∧
    total_entries t = length rxns ∧
    (∀ r, r ∈ rxns →
       lookup_path (classification_list (objects r)) t
       = Some (Leaf (filter (λ r', classification_list (objects r')
                                   = classification_list (objects r)) rxns))) ∧
    (∀ p entries, lookup_path p t = Some (Leaf entries) →
       ∃ r, r ∈ rxns ∧ classification_list (objects r) = p).
Proof.
  intros Hne Hapart.
  destruct (add_reactions_grouped objects rxns [] (Mapping []))
    as (t & Hrun & Hrooted & Hleaves & Hlookup & Htotal);
    [apply grouped_empty | done | done |]. simpl in *.
  exists t. split_and!; try done.
  intros p entries Hp. destruct (Hleaves p entries Hp) as [Hnonempty ->].
  destruct (filter _ rxns) as [|r l] eqn:Hfilter; [done|].
  assert (r ∈ filter (λ r0, classification_list (objects r0) = p) rxns) as Hr
    by (rewrite Hfilter; left).
  apply list_elem_of_filter in Hr as [? ?]. eauto.
Qed.

(** Four reactions, the first and the last of one classification. *)
Definition classified_twice : heap :=
  λ l, match l with
       | 1%nat => mkReaction 2 [] [] 0 ["chemical"; "unimolecular"; "fragmentation"] ""
       | 2%nat => mkReaction 3 [] [] 0 ["chemical"; "unimolecular"; "isomerization"] ""
       | _ => mkReaction 1 [] [] 0 ["ionization"; "positive_ionization"] ""
       end.

Lemma classified_twice_apart ri rj :
  ¬ strict_prefix (classification_list (classified_twice ri))
      (classification_list (classified_twice rj)).
Proof.
  intros (key & rest & Hpre).
  destruct ri as [|[|[|ri]]]; destruct rj as [|[|[|rj]]]; simplify_eq/=.
Qed.

Lemma add_reactions_groups_witness :
  ∃ t,
    add_reactions classified_twice [0; 1; 2; 3]%nat (Mapping []) = (Returned tt, t) ∧
    total_entries t = 4%nat ∧
    lookup_path ["ionization"; "positive_ionization"] t
    = Some (Leaf [0%nat; 3%nat]).
Proof.
  destruct (add_reactions_groups classified_twice [0; 1; 2; 3]%nat)
    as (t & Hrun & Htotal & Hlookup & _).
  - intros r _. by destruct r as [|[|[|r]]].
  - intros ri rj _ _. apply classified_twice_apart.
  - exists t. split; [exact Hrun|]. split; [exact Htotal|].
    apply (Hlookup 0%nat). by left.
Defined.

(** *** The loop that fills [tagged_rxn_dict] *)

Section ClassificationFacts.
Variable write_reaction_classification : Reaction → list string.

(** The heap in which the reactions [rxns] carry their classification. *)
Definition classified_heap (h : heap) (rxns : list loc) : heap :=
  λ l, if bool_decide (l ∈ rxns)
       then set_classification_list (write_reaction_classification (h l)) (h l)
       else h l.

Lemma add_reactions_ext (objects objects' : heap) rxns t :
  (∀ r, r ∈ rxns →
     classification_list (objects r) = classification_list (objects' r)) →
  add_reactions objects rxns t = add_reactions objects' rxns t.
Proof.
  revert t. induction rxns as [|r rxns IH]; intros t Hext; [done|].
  unfold add_reactions in *. cbn [for_each]. unfold bind.
  unfold add_reaction_to_dictionary at 1 3. rewrite <- (Hext r) by left.
  destruct (add_value_to_nested_dict r _ t) as [[[]|e] t1]; [|done].
  apply IH. intros r' Hr'. apply Hext. by right.
Qed.

Lemma classify_reactions_run rxns :
  NoDup rxns →
  ∀ (h : heap) t t',
    add_reactions (classified_heap h rxns) rxns t = (Returned tt, t') →
    ∃ h' : heap,
      classify_reactions write_reaction_classification rxns (h, t)
        = (Returned tt, (h', t')) ∧
      ∀ l, h' l = classified_heap h rxns l.
Proof.
  induction 1 as [|r rxns Hr Hnodup IH]; intros h t t' Hrun.
  - injection Hrun as <-. exists h. by split.
  - set (h1 := <[r := set_classification_list
                        (write_reaction_classification (h r)) (h r)]> h : heap).
    unfold add_reactions in Hrun. cbn [for_each] in Hrun. unfold bind in Hrun.
    unfold add_reaction_to_dictionary at 1 in Hrun.
    assert (classification_list (classified_heap h (r :: rxns) r)
            = write_reaction_classification (h r)) as Hpath.
    { unfold classified_heap. rewrite bool_decide_eq_true_2 by left. done. }
    rewrite Hpath in Hrun.
    destruct (add_value_to_nested_dict r (write_reaction_classification (h r)) t)
      as [[[]|e] t1] eqn:Hstep; [|done].
    fold (add_reactions (classified_heap h (r :: rxns)) rxns t1) in Hrun.
    assert (∀ l, l ∈ rxns → classified_heap h (r :: rxns) l = classified_heap h1 rxns l)
      as Hsame.
    { intros l Hl. unfold classified_heap.
      rewrite !bool_decide_eq_true_2 by (done || by right).
      unfold h1. rewrite fn_lookup_insert_ne; [done|]. by intros ->. }
    rewrite (add_reactions_ext _ (classified_heap h1 rxns)) in Hrun
      by (intros l Hl; by rewrite Hsame).
    destruct (IH h1 t1 t' Hrun) as (h' & Hloop & Hh').
    exists h'. split.
    + unfold classify_reactions in *. cbn [for_each].
      erewrite bind_returned; [exact Hloop|].
      unfold classify_reaction, bind, gets, modify, add_reaction_to_dictionary.
      cbn [fst snd]. fold h1.
      assert (classification_list (h1 r) = write_reaction_classification (h r))
        as -> by (unfold h1; by rewrite fn_lookup_insert).
      by rewrite Hstep.
    + intros l. rewrite Hh'.
      destruct (decide (l ∈ rxns)) as [Hl|Hl]; [by rewrite Hsame|].
      unfold classified_heap at 1. rewrite bool_decide_eq_false_2 by done.
      unfold classified_heap, h1.
      destruct (decide (l = r)) as [->|Hne].
      * rewrite bool_decide_eq_true_2 by left. by rewrite fn_lookup_insert.
      * rewrite bool_decide_eq_false_2 by (rewrite elem_of_cons; tauto).
        by rewrite fn_lookup_insert_ne.
Qed.

Lemma filter_ext_elem_of {A} (P Q : A → Prop)
    `{!∀ x, Decision (P x), !∀ x, Decision (Q x)} (l : list A) :
  (∀ x, x ∈ l → P x ↔ Q x) → filter P l = filter Q l.
Proof.
  induction l as [|x l IH]; intros Hext; [done|].
  rewrite !filter_cons, IH by (intros y Hy; apply Hext; by right).
  destruct (decide (P x)) as [HP|HP]; destruct (decide (Q x)) as [HQ|HQ];
    try done; destruct (Hext x); by (left || tauto).
Qed.

(** X15. On a population without repeats whose classifications, as
    [write_reaction_classification] computes them, are non-empty and such
    that none stops before the end of another, the loop that fills
    [tagged_rxn_dict] from the empty dictionary returns; every reaction of
    the population then carries its classification and is otherwise as it
    was, reactions outside the population are as they were, the dictionary
    holds as many entries as the population has reactions, and the list at
    the end of a classification holds the reactions of that classification
    in the order of the population. *)
Theorem classify_reactions_groups (h : heap) (rxns_for_simulation : list loc) :
  NoDup rxns_for_simulation →
  (∀ r, r ∈ rxns_for_simulation → write_reaction_classification (h r) ≠ []) →
  (∀ ri rj, ri ∈ rxns_for_simulation → rj ∈ rxns_for_simulation →
     ¬ strict_prefix (write_reaction_classification (h ri))
         (write_reaction_classification (h rj))) →
  ∃ (h' : heap) tagged_rxn_dict,
    classify_reactions write_reaction_classification rxns_for_simulation
      (h, Mapping []) = (Returned tt, (h', tagged_rxn_dict)) ∧
    (∀ r, r ∈ rxns_for_simulation →
       h' r = set_classification_list (write_reaction_classification (h r)) (h r)) ∧
    (∀ l, l ∉ rxns_for_simulation → h' l = h l) ∧
    total_entries tagged_rxn_dict = length rxns_for_simulation ∧
    ∀ r, r ∈ rxns_for_simulation →
      lookup_path (write_reaction_classification (h r)) tagged_rxn_dict
      = Some (Leaf (filter (λ r', write_reaction_classification (h r')
                                  = write_reaction_classification (h r))
                      rxns_for_simulation)).
Proof.
  intros Hnodup Hne Hapart.
  assert (∀ r, r ∈ rxns_for_simulation →
            classification_list (classified_heap h rxns_for_simulation r)
            = write_reaction_classification (h r)) as Hpath.
  { intros r Hr. unfold classified_heap. by rewrite bool_decide_eq_true_2. }
  destruct (add_reactions_grouped (classified_heap h rxns_for_simulation)
              rxns_for_simulation [] (Mapping []))
    as (t & Hrun & _ & _ & Hlookup & Htotal); [apply grouped_empty | ..].
  { intros r Hr. rewrite Hpath by done. by apply Hne. }
  { intros ri rj Hi Hj. rewrite !Hpath by done. by apply Hapart. }
  simpl in *.
  destruct (classify_reactions_run rxns_for_simulation Hnodup h (Mapping []) t Hrun)
    as (h' & Hloop & Hh').
  exists h', t. split_and!; try done.
  - intros r Hr. rewrite Hh'. unfold classified_heap.
    by rewrite bool_decide_eq_true_2.
  - intros l Hl. rewrite Hh'. unfold classified_heap.
    by rewrite bool_decide_eq_false_2.
  - intros r Hr. rewrite <- Hpath, Hlookup by done. do 2 f_equal.
    apply filter_ext_elem_of. intros r' Hr'. by rewrite !Hpath.
Qed.
End ClassificationFacts.

(** A population tagged for ionization and for fragmentation, classified by
    its tag. *)
Definition tagged_population : heap :=
  λ l, match l with
       | 1%nat => mkReaction 2 [] [] 0 [] "fragmentation"
       | _ => mkReaction 1 [] [] 0 [] "positive_ionization"
       end.

Definition classify_by_tag (r : Reaction) : list string :=
  if String.eqb (tag r) "fragmentation"
  then ["chemical"; "unimolecular"; tag r]
  else ["ionization"; tag r].

Lemma classify_reactions_groups_witness :
  ∃ (h' : heap) tagged_rxn_dict,
    classify_reactions classify_by_tag [0; 1; 2]%nat (tagged_population, Mapping [])
      = (Returned tt, (h', tagged_rxn_dict)) ∧
    classification_list (h' 1%nat) = ["chemical"; "unimolecular"; "fragmentation"] ∧
    total_entries tagged_rxn_dict = 3%nat ∧
    lookup_path ["ionization"; "positive_ionization"] tagged_rxn_dict
    = Some (Leaf [0%nat; 2%nat]).
Proof.
  destruct (classify_reactions_groups classify_by_tag tagged_population
              [0; 1; 2]%nat) as (h' & t & Hrun & Hh' & _ & Htotal & Hlookup).
  - apply NoDup_ListNoDup. repeat constructor; simpl; lia.
  - intros r _. by destruct r as [|[|r]].
  - intros ri rj _ _ (key & rest & Hpre).
    destruct ri as [|[|ri]]; destruct rj as [|[|rj]]; simplify_eq/=.
  - exists h', t. split_and!; [done | | done |].
    + rewrite Hh' by (by right; left). done.
    + apply (Hlookup 0%nat). by left.
Defined.

End NestedDictMore.

(** ** The test-set script *)
Module EUVLFacts.
Import HiPRGen EUVL.

(** *** Lines and ids *)

Definition newline : string := String (Ascii.ascii_of_nat 10) EmptyString.

(** Every character of the string is white space. *)
Fixpoint blank (s : string) : bool :=
  match s with
  | EmptyString => true
  | String c s' => isspace c && blank s'
  end.

Lemma lstrip_blank s : blank s = true → lstrip s = EmptyString.
Proof.
  induction s as [|c s IH]; simpl; [done|].
  intros [-> Hs]%andb_true_iff. by apply IH.
Qed.

Lemma lstrip_not_blank s :
  blank s = false → ∃ c s', lstrip s = String c s' ∧ isspace c = false.
Proof.
  induction s as [|c s IH]; simpl; [done|].
  destruct (isspace c) eqn:Hc; simpl; [exact IH | eauto].
Qed.

Lemma rstrip_not_space c s : isspace c = false → rstrip (String c s) ≠ EmptyString.
Proof. intros Hc. simpl. rewrite Hc. by destruct (rstrip s). Qed.

Lemma strip_empty s : strip s = EmptyString ↔ blank s = true.
Proof.
  unfold strip. destruct (blank s) eqn:Hs.
  - by rewrite lstrip_blank.
  - destruct (lstrip_not_blank s Hs) as (c & s' & -> & Hc).
    split; [|done]. intros Hr. by apply (rstrip_not_space c s') in Hr.
Qed.

Lemma blank_snoc s c : blank (s +:+ String c EmptyString) = blank s && isspace c.
Proof.
  induction s as [|a s IH]; simpl.
  - by rewrite andb_true_r.
  - by rewrite IH, andb_assoc.
Qed.

Lemma length_snoc s c :
  String.length (s +:+ String c EmptyString) = S (String.length s).
Proof. induction s as [|a s IH]; simpl; [done | by rewrite IH]. Qed.

Lemma substring_front s t :
  String.substring 0 (String.length s) (s +:+ t) = s.
Proof.
  induction s as [|a s IH]; simpl.
  - by destruct t.
  - by rewrite IH.
Qed.

Lemma all_but_last_snoc s c : all_but_last (s +:+ String c EmptyString) = s.
Proof.
  unfold all_but_last. rewrite length_snoc. simpl. rewrite Nat.sub_0_r.
  apply substring_front.
Qed.

Lemma read_mol_id_list_snoc mol_id_doc line :
  read_mol_id_list (mol_id_doc ++ [line])
  = read_mol_id_list mol_id_doc
    ++ (if decide (strip line = EmptyString) then [] else [all_but_last line]).
Proof.
  unfold read_mol_id_list. rewrite foldl_snoc.
  destruct (decide (strip line = EmptyString)) as [->|Hline].
  - by rewrite app_nil_r.
  - by destruct (strip line).
Qed.

(** X16. Reading back ids that were written one per line, each followed by
    a line break, gives the ids in their order, without those that consist
    of white space only; white space inside or around an id is kept. *)
Theorem read_mol_id_list_round_trip (ids : list string) :
  read_mol_id_list ((λ mol_id, mol_id +:+ newline) <$> ids)
  = filter (λ mol_id, blank mol_id = false) ids.
Proof.
  induction ids as [|mol_id ids IH] using rev_ind; [done|].
  rewrite fmap_app, filter_app. simpl.
  rewrite read_mol_id_list_snoc, IH. f_equal.
  unfold newline. rewrite all_but_last_snoc, filter_cons, filter_nil.
  destruct (decide (strip _ = EmptyString)) as [Hblank|Hblank].
  - apply strip_empty in Hblank. rewrite blank_snoc in Hblank.
    apply andb_true_iff in Hblank as [Hblank _].
    rewrite decide_False; [done | congruence].
  - rewrite decide_True; [done|].
    destruct (blank mol_id) eqn:Hid; [|done].
    destruct Hblank. apply strip_empty. rewrite blank_snoc, Hid. done.
Qed.

(** X17. What the script keeps of a line that is not blank is the line
    without its last character, whatever that character is: a last line
    that does not end in a line break loses the last character of its
    id. *)
Theorem read_mol_id_list_drops_last_character mol_id_doc s c :
  blank (s +:+ String c EmptyString) = false →
  read_mol_id_list (mol_id_doc ++ [s +:+ String c EmptyString])
  = read_mol_id_list mol_id_doc ++ [s].
Proof.
  intros Hline. rewrite read_mol_id_list_snoc, all_but_last_snoc.
  rewrite decide_False; [done|].
  intros Hblank%strip_empty. congruence.
Qed.

Lemma read_mol_id_list_drops_last_character_witness :
  read_mol_id_list (["abc" +:+ newline] ++ ["de" +:+ String (Ascii.ascii_of_nat 102) EmptyString])
  = read_mol_id_list ["abc" +:+ newline] ++ ["de"].
Proof.
  by apply (read_mol_id_list_drops_last_character ["abc" +:+ newline] "de" (Ascii.ascii_of_nat 102)).
Defined.

(** *** The selected ids *)

Lemma elem_of_foldl_add {A B} (f : list A → B → list A) (Q : B → A → Prop) :
  (∀ acc b x, x ∈ f acc b ↔ x ∈ acc ∨ Q b x) →
  ∀ l acc x, x ∈ foldl f acc l ↔ x ∈ acc ∨ ∃ b, b ∈ l ∧ Q b x.
Proof.
  intros Hf l. induction l as [|b l IH]; intros acc x; simpl.
  - split; [by left|]. intros [?|(b & Hb & _)]; [done|]. by apply elem_of_nil in Hb.
  - rewrite IH, Hf. split.
    + intros [[?|?]|(b' & Hb' & ?)]; [by left|right..].
      * exists b. split; [left|done].
      * exists b'. split; [by right|done].
    + intros [?|(b' & [->|Hb']%elem_of_cons & ?)]; [by left; left|by left; right|].
      right. eauto.
Qed.

Lemma eq_str_true x s : eq_str x s = true ↔ x = JStr s.
Proof.
  destruct x; simpl; try (split; [done | by intros [=]]).
  destruct (String.eqb_spec s0 s) as [->|Hne]; [done|].
  split; [done | by intros [= ->]].
Qed.

Section SelectionFacts.
Context {graph : Type} (isomorphic_to : graph → graph → bool).

(** X18. The selected ids are those of the entries whose graph is
    isomorphic to the graph of an entry that carries a requested id; when
    every graph is isomorphic to itself, every requested id that an entry
    carries is selected. *)
Theorem select_mol_ids_spec (mol_id_list : list string)
    (mol_entries : list (@MoleculeEntry graph)) :
  (∀ x,
     x ∈ select_mol_ids isomorphic_to mol_id_list mol_entries ↔
     ∃ mol_id mol_entry entry,
       mol_id ∈ mol_id_list ∧
       mol_entry ∈ mol_entries ∧ entry_id mol_entry = JStr mol_id ∧
       entry ∈ mol_entries ∧
       isomorphic_to (mol_graph entry) (mol_graph mol_entry) = true ∧
       entry_id entry = x) ∧
  ((∀ g, isomorphic_to g g = true) →
   ∀ mol_id mol_entry,
     mol_id ∈ mol_id_list → mol_entry ∈ mol_entries →
     entry_id mol_entry = JStr mol_id →
     JStr mol_id ∈ select_mol_ids isomorphic_to mol_id_list mol_entries).
Proof.
  assert (∀ x,
     x ∈ select_mol_ids isomorphic_to mol_id_list mol_entries ↔
     ∃ mol_id mol_entry entry,
       mol_id ∈ mol_id_list ∧
       mol_entry ∈ mol_entries ∧ entry_id mol_entry = JStr mol_id ∧
       entry ∈ mol_entries ∧
       isomorphic_to (mol_graph entry) (mol_graph mol_entry) = true ∧
       entry_id entry = x) as Hspec.
  { intros x. unfold select_mol_ids.
    rewrite (elem_of_foldl_add _ (λ mol_id x,
      ∃ mol_entry entry,
        mol_entry ∈ mol_entries ∧ entry_id mol_entry = JStr mol_id ∧
        entry ∈ mol_entries ∧
        isomorphic_to (mol_graph entry) (mol_graph mol_entry) = true ∧
        entry_id entry = x)).
    - split.
      + intros [Hx|(mol_id & ? & mol_entry & entry & ?)];
          [by apply elem_of_nil in Hx|].
        exists mol_id, mol_entry, entry. tauto.
      + intros (mol_id & mol_entry & entry & ? & ?). right.
        exists mol_id. split; [done|]. by exists mol_entry, entry.
    - intros acc mol_id y.
      rewrite (elem_of_foldl_add _ (λ mol_entry y,
        entry_id mol_entry = JStr mol_id ∧
        ∃ entry, entry ∈ mol_entries ∧
          isomorphic_to (mol_graph entry) (mol_graph mol_entry) = true ∧
          entry_id entry = y)).
      + split; (intros [?|Hy]; [by left|right]).
        * destruct Hy as (mol_entry & ? & ? & entry & ?).
          exists mol_entry, entry. tauto.
        * destruct Hy as (mol_entry & entry & ? & ? & ?).
          exists mol_entry. split_and!; [done..|]. by exists entry.
      + intros acc' mol_entry z.
        destruct (eq_str (entry_id mol_entry) mol_id) eqn:Hid.
        * apply eq_str_true in Hid.
          rewrite (elem_of_foldl_add _ (λ entry z,
            isomorphic_to (mol_graph entry) (mol_graph mol_entry) = true ∧
            entry_id entry = z)).
          -- split; (intros [?|Hz]; [by left|right]).
             ++ destruct Hz as (entry & ? & ? & ?). split; [done|]. by exists entry.
             ++ destruct Hz as (_ & entry & ? & ? & ?). by exists entry.
          -- intros acc'' entry u.
             destruct (isomorphic_to (mol_graph entry) (mol_graph mol_entry)).
             ++ rewrite elem_of_app, list_elem_of_singleton.
                split; [intros [?| ->]; [by left | by right]|].
                intros [?|[_ ->]]; [by left | by right].
             ++ split; [by left|]. by intros [?|[? _]].
        * split; [by left|]. intros [?|[Hid' _]]; [done|].
          apply eq_str_true in Hid'. congruence. }
  split; [exact Hspec|].
  intros Hrefl mol_id mol_entry Hid Hentry Hcarries. apply Hspec.
  exists mol_id, mol_entry, mol_entry. by split_and!.
Qed.
End SelectionFacts.

(** Two charge states of one molecule and another molecule; graphs are
    numbers, isomorphic when equal. *)
Definition sample_entries : list (@MoleculeEntry nat) :=
  [{| entry_id := JStr "mol-1"; mol_graph := 7%nat |};
   {| entry_id := JStr "mol-2"; mol_graph := 7%nat |};
   {| entry_id := JStr "mol-3"; mol_graph := 9%nat |}].

Lemma select_mol_ids_spec_witness :
  JStr "mol-1" ∈ select_mol_ids Nat.eqb ["mol-1"] sample_entries ∧
  select_mol_ids Nat.eqb ["mol-1"] sample_entries = [JStr "mol-1"; JStr "mol-2"].
Proof.
  split; [|reflexivity].
  apply (proj2 (select_mol_ids_spec Nat.eqb ["mol-1"] sample_entries)
           Nat.eqb_refl "mol-1" {| entry_id := JStr "mol-1"; mol_graph := 7%nat |});
    [by left | by left | done].
Defined.

(** *** Keys that name orbital data *)

(** How many of the words of [to_remove] occur in a key, and whether any
    does. *)
Definition tags_in (name : string) : nat :=
  length (filter (λ remove, contains remove name = true) to_remove).

Definition tagged (name : string) : bool :=
  existsb (λ remove, contains remove name) to_remove.

Lemma tags_in_tagged name : tagged name = true ↔ (0 < tags_in name)%nat.
Proof.
  unfold tagged, tags_in, to_remove. rewrite !filter_cons, filter_nil. simpl.
  destruct (contains "nbo" name), (contains "alpha" name), (contains "beta" name);
    simpl; split; (done || lia).
Qed.

Lemma for_each_app {S A B} (body : A → B → M S A) acc (l1 l2 : list B) s :
  for_each body acc (l1 ++ l2) s
  = (let! acc' := for_each body acc l1 in for_each body acc' l2) s.
Proof.
  revert acc s. induction l1 as [|x l1 IH]; intros acc s; simpl; [done|].
  unfold bind in *.
  destruct (body acc x s) as [[acc'|e] s']; [apply IH | done].
Qed.

Section EntriesFacts.
Context {V : Type}.
Implicit Types d entry : list (string * V).

(** The entry without the item of a key. *)
Definition without (name : string) d : list (string * V) :=
  filter (λ kv, kv.1 ≠ name) d.

Lemma pop_item_absent name d : name ∉ d.*1 → pop_item name d = None.
Proof.
  induction d as [|[k v] d IH]; simpl; [done|].
  intros [Hne Hd]%not_elem_of_cons.
  destruct (String.eqb_spec name k) as [->|_]; [done|]. by rewrite IH.
Qed.

Lemma without_absent name d : name ∉ d.*1 → without name d = d.
Proof.
  unfold without. induction d as [|[k v] d IH]; simpl; [done|].
  intros [Hne Hd]%not_elem_of_cons.
  rewrite filter_cons_True by done. by rewrite IH.
Qed.

Lemma pop_item_present name d :
  NoDup d.*1 → name ∈ d.*1 → ∃ v, pop_item name d = Some (v, without name d).
Proof.
  unfold without. induction d as [|[k v] d IH]; simpl.
  - intros _ Hin. by apply elem_of_nil in Hin.
  - intros [Hk Hd]%NoDup_cons Hin.
    destruct (String.eqb_spec name k) as [->|Hne].
    + exists v. rewrite filter_cons_False by (simpl; tauto).
      pose proof (without_absent k d Hk) as Hsame. unfold without in Hsame.
      by rewrite Hsame.
    + apply elem_of_cons in Hin as [?|Hin]; [done|].
      destruct (IH Hd Hin) as [w ->]. exists w.
      by rewrite filter_cons_True by (simpl; congruence).
Qed.

Lemma elem_of_without_keys name k d :
  k ∈ (without name d).*1 ↔ k ∈ d.*1 ∧ k ≠ name.
Proof.
  unfold without. rewrite !list_elem_of_fmap. split.
  - intros ([k' v] & -> & [Hne Hin]%list_elem_of_filter). split; [|done].
    by exists (k', v).
  - intros [([k' v] & -> & Hin) Hne]. exists (k', v). split; [done|].
    by apply list_elem_of_filter.
Qed.

Lemma NoDup_filter_keys (P : string * V → Prop) `{!∀ kv, Decision (P kv)} d :
  NoDup d.*1 → NoDup (filter P d).*1.
Proof.
  induction d as [|[k v] d IH]; simpl; [done|].
  intros [Hk Hd]%NoDup_cons. rewrite filter_cons.
  destruct (decide (P (k, v))); [|by apply IH].
  simpl. apply NoDup_cons. split; [|by apply IH].
  intros ([k' v'] & Hkk & [_ Hin]%list_elem_of_filter)%list_elem_of_fmap.
  simpl in Hkk. subst k'. apply Hk. apply list_elem_of_fmap. by exists (k, v').
Qed.

Abbreviation for_one_key name :=
  (for_each (S := list (string * V)) (λ _ remove,
      if contains remove name then let! val := pop name in ret tt else ret tt)
     tt to_remove).

(** The loop over [to_remove] for one key of the entry. *)
Lemma for_one_key_run name d :
  NoDup d.*1 → name ∈ d.*1 →
  for_one_key name d
  = match tags_in name with
    | 0%nat => (Returned tt, d)
    | 1%nat => (Returned tt, without name d)
    | _ => (Raised (key_error name), without name d)
    end.
Proof.
  intros Hnodup Hin.
  destruct (pop_item_present name d Hnodup Hin) as [v Hpop].
  assert (pop_item name (without name d) = None) as Hgone.
  { apply pop_item_absent. rewrite elem_of_without_keys. tauto. }
  unfold tags_in, to_remove. rewrite !filter_cons, filter_nil.
  cbn [for_each]. unfold bind, pop, ret.
  destruct (contains "nbo" name), (contains "alpha" name), (contains "beta" name);
    simpl; rewrite ?Hpop; simpl; rewrite ?Hgone; done.
Qed.

Lemma remove_loop_run todo :
  ∀ d,
    NoDup d.*1 → NoDup todo →
    (∀ name, name ∈ todo → name ∈ d.*1) →
    (∀ name, name ∈ todo → (tags_in name ≤ 1)%nat) →
    for_each (λ _ name, for_one_key name) tt todo d
    = (Returned tt, filter (λ kv, ¬ (kv.1 ∈ todo ∧ tagged kv.1 = true)) d).
Proof.
  induction todo as [|name todo IH]; intros d Hd Htodo Hin Hones.
  - simpl. f_equal. clear. induction d as [|kv d IH]; [done|].
    rewrite filter_cons_True, <- IH; [done|].
    intros [Hmem _]. by apply elem_of_nil in Hmem.
  - apply NoDup_cons in Htodo as [Hname Htodo].
    cbn [for_each]. unfold bind at 1.
    rewrite for_one_key_run by (done || apply Hin; left).
    pose proof (Hones name ltac:(left)) as Hone.
    pose proof (tags_in_tagged name) as Htag.
    destruct (tags_in name) as [|[|n]] eqn:Hcount; [| |lia].
    + rewrite IH; try done.
      * f_equal. apply list_filter_iff. intros [k v]. simpl.
        rewrite elem_of_cons.
        split; intros Hk [Hmem Hkt]; apply Hk; (split; [|done]).
        -- destruct Hmem as [->|]; [|done].
           apply Htag in Hkt. lia.
        -- by right.
      * intros n Hn. apply Hin. by right.
      * intros n Hn. apply Hones. by right.
    + rewrite IH; try done.
      * f_equal. unfold without. rewrite list_filter_filter.
        apply list_filter_iff. intros [k v]. simpl. rewrite elem_of_cons.
        split.
        -- intros [Hk Hne] [[->|Hmem] Hkt]; [done|]. by apply Hk.
        -- intros Hk. split.
           ++ intros [Hmem Hkt]. apply Hk. split; [by right | done].
           ++ intros ->. apply Hk. split; [by left|]. apply Htag. lia.
      * by apply NoDup_filter_keys.
      * intros n Hn. apply elem_of_without_keys. split; [apply Hin; by right|].
        by intros ->.
      * intros n Hn. apply Hones. by right.
Qed.

(** X19. For an entry whose keys are distinct, none of them containing two
    of the words [nbo], [alpha] and [beta], the copy that goes into the test
    set holds the items of the entry whose key contains none of the words,
    in their order and with their values. *)
Theorem copy_without_tagged_keys_filters entry :
  NoDup entry.*1 →
  (∀ name, name ∈ entry.*1 → (tags_in name ≤ 1)%nat) →
  copy_without_tagged_keys entry
  = (Returned tt, filter (λ kv, tagged kv.1 = false) entry).
Proof.
  intros Hnodup Hones. unfold copy_without_tagged_keys, remove_tagged_keys.
  rewrite remove_loop_run; try done.
  f_equal. apply NestedDictMore.filter_ext_elem_of. intros [k v] Hin. simpl.
  split.
  - intros Hk. destruct (tagged k) eqn:Hkt; [|done].
    destruct Hk. split; [|done]. apply list_elem_of_fmap. by exists (k, v).
  - intros Hkt [_ ?]. congruence.
Qed.

(** X20. When a key of the entry contains two of the words [nbo], [alpha]
    and [beta], and no key before it does, the second [pop] of that key
    raises [KeyError]: the script stops there, the key and the tagged keys
    before it removed from the copy. *)
Theorem copy_without_tagged_keys_pops_twice entry before name after :
  NoDup entry.*1 →
  entry.*1 = before ++ name :: after →
  (∀ n, n ∈ before → (tags_in n ≤ 1)%nat) →
  (2 ≤ tags_in name)%nat →
  copy_without_tagged_keys entry
  = (Raised (key_error name),
     without name
       (filter (λ kv, ¬ (kv.1 ∈ before ∧ tagged kv.1 = true)) entry)).
Proof.
  intros Hnodup Hkeys Hones Htwo.
  unfold copy_without_tagged_keys, remove_tagged_keys.
  assert (NoDup (before ++ name :: after)) as Hnd by by rewrite <- Hkeys.
  apply NoDup_app in Hnd as (Hbefore & Hapart & [Hname _]%NoDup_cons).
  rewrite Hkeys, for_each_app. unfold bind at 1.
  rewrite remove_loop_run; try done.
  - cbn [for_each]. unfold bind at 1.
    rewrite for_one_key_run.
    + by destruct (tags_in name) as [|[|n]]; [lia..|].
    + by apply NoDup_filter_keys.
    + apply list_elem_of_fmap.
      assert (name ∈ entry.*1) as ([k v] & -> & Hin)%list_elem_of_fmap
        by (rewrite Hkeys, elem_of_app, elem_of_cons; auto).
      exists (k, v). split; [done|]. apply list_elem_of_filter. split; [|done].
      simpl. intros [Hmem _]. apply (Hapart k Hmem). by left.
  - intros n Hn. rewrite Hkeys, elem_of_app. by left.
Qed.
End EntriesFacts.

Lemma copy_without_tagged_keys_filters_witness :
  copy_without_tagged_keys
    [("molecule_id", 1); ("nbo_bonds", 2); ("charge", 3); ("alpha_homo", 4)]
  = (Returned tt, [("molecule_id", 1); ("charge", 3)]).
Proof.
  etrans.
  - apply (copy_without_tagged_keys_filters
             [("molecule_id", 1); ("nbo_bonds", 2); ("charge", 3); ("alpha_homo", 4)]).
    + apply NoDup_ListNoDup. repeat constructor; simpl; intuition discriminate.
    + intros name Hname. apply list_elem_of_In in Hname. simpl in Hname.
      destruct Hname as [<-|[<-|[<-|[<-|[]]]]]; vm_compute; lia.
  - reflexivity.
Defined.

Lemma copy_without_tagged_keys_pops_twice_witness :
  copy_without_tagged_keys
    [("molecule_id", 1); ("nbo_bonds", 2); ("alpha_beta_gap", 3); ("charge", 4)]
  = (Raised (key_error "alpha_beta_gap"), [("molecule_id", 1); ("charge", 4)]).
Proof.
  etrans.
  - apply (copy_without_tagged_keys_pops_twice
             [("molecule_id", 1); ("nbo_bonds", 2); ("alpha_beta_gap", 3); ("charge", 4)]
             ["molecule_id"; "nbo_bonds"] "alpha_beta_gap" ["charge"]).
    + apply NoDup_ListNoDup. repeat constructor; simpl; intuition discriminate.
    + reflexivity.
    + intros name Hname. apply list_elem_of_In in Hname. simpl in Hname.
      destruct Hname as [<-|[<-|[]]]; vm_compute; lia.
    + vm_compute. lia.
  - reflexivity.
Defined.

End EUVLFacts.
